(** * youtube_transcript_generator: script refinement, paragraph segmentation,
      language detection and time formatting

    A shallow embedding of the text pipeline of the package
    [youtube_transcript_generator]:

    - [document_generator.refine_script]
    - [document_generator.split_into_paragraphs]
    - [translator.detect_language]
    - [transcriber.format_time]

    A Python [str] is a sequence of Unicode code points; it is modelled as a
    list of code points.  The library functions the source calls ([re.sub]
    on a literal, [str.split] on a literal separator, [str.join],
    [str.strip], [re.split] on the sentence pattern, the [in] operator) are
    embedded as structurally recursive functions on such lists.

    A Python [float] is a binary64 number; the floating-point operations of
    [detect_language] and [format_time] are embedded on the rationals, each
    result rounded to the nearest number with a 53-bit significand.

    The file has two parts: the embedding of the program, then the
    properties, grouped by function. *)

From Stdlib Require Import List NArith ZArith QArith Qround Qabs Qpower.
From Stdlib Require Import Bool Lia Lqa DecimalN.
From Stdlib Require Import Strings.Ascii.
From Stdlib Require Strings.String.
Import ListNotations String.StringSyntax.

Set Implicit Arguments.

(* ================================================================== *)
(** * Python strings *)
(* ================================================================== *)

Module Py.

(** A code point, [0 .. 0x10FFFF]. *)
Definition char := N.

(** A Python [str]. *)
Definition str := list char.

Definition char_eq_dec : forall a b : char, {a = b} + {a <> b} := N.eq_dec.

Definition str_eq_dec : forall a b : str, {a = b} + {a <> b} :=
  list_eq_dec char_eq_dec.

(** Decoding of the UTF-8 bytes of a literal of the source file into code
    points: the Python source is UTF-8 and its literals denote code-point
    sequences.  [need] continuation bytes are still expected for the code
    point whose high bits are [pending]. *)
Fixpoint utf8_decode (pending : N) (need : nat) (bs : list N) : str :=
  match bs with
  | [] => []
  | b :: bs' =>
      match need with
      | S k =>
          let cp := (pending * 64 + b mod 64)%N in
          match k with
          | O => cp :: utf8_decode 0 0 bs'
          | S _ => utf8_decode cp k bs'
          end
      | O =>
          if (b <? 0x80)%N then b :: utf8_decode 0 0 bs'
          else if (b <? 0xE0)%N then utf8_decode (b mod 32)%N 1 bs'
          else if (b <? 0xF0)%N then utf8_decode (b mod 16)%N 2 bs'
          else utf8_decode (b mod 8)%N 3 bs'
      end
  end.

(** The [str] denoted by a literal. *)
Definition lit (s : String.string) : str :=
  utf8_decode 0 0 (map N_of_ascii (String.list_ascii_of_string s)).

Delimit Scope string_scope with string.
Arguments lit s%_string.

(** [not s] *)
Definition is_empty (s : str) : bool :=
  match s with [] => true | _ :: _ => false end.

(** [not l] on a list *)
Definition is_empty_list (A : Type) (l : list A) : bool :=
  match l with [] => true | _ :: _ => false end.

(** [s.startswith(p)] *)
Fixpoint prefixb (p s : str) : bool :=
  match p, s with
  | [], _ => true
  | _ :: _, [] => false
  | a :: p', b :: s' => (a =? b)%N && prefixb p' s'
  end.

(** [p in s] on strings: some position of [s] starts a copy of [p]. *)
Fixpoint containsb (p s : str) : bool :=
  prefixb p s ||
  match s with
  | [] => false
  | _ :: s' => containsb p s'
  end.

(** [str.isspace] on one character, which is also the class [\s] of [re]
    on a [str] pattern: the Unicode white-space code points. *)
Definition is_space (c : char) : bool :=
  ((0x09 <=? c) && (c <=? 0x0D) ||
   (0x1C <=? c) && (c <=? 0x20) ||
   (c =? 0x85) || (c =? 0xA0) || (c =? 0x1680) ||
   (0x2000 <=? c) && (c <=? 0x200A) ||
   (c =? 0x2028) || (c =? 0x2029) || (c =? 0x202F) ||
   (c =? 0x205F) || (c =? 0x3000))%N.

(** [s.lstrip()] *)
Fixpoint lstrip (s : str) : str :=
  match s with
  | [] => []
  | c :: s' => if is_space c then lstrip s' else s
  end.

(** [s.rstrip()] *)
Definition rstrip (s : str) : str := rev (lstrip (rev s)).

(** [s.strip()] *)
Definition strip (s : str) : str := rstrip (lstrip s).

(** [sep.join(l)] *)
Fixpoint join (sep : str) (l : list str) : str :=
  match l with
  | [] => []
  | [p] => p
  | p :: ps => p ++ sep ++ join sep ps
  end.

(** Prepend [c] to the first piece of a split. *)
Definition cons_head (c : char) (l : list str) : list str :=
  match l with
  | [] => [[c]]
  | p :: ps => (c :: p) :: ps
  end.

(** [s.split(sep)] for a non-empty literal [sep]: the text is cut at the
    occurrences of [sep] found from left to right, without overlap.
    [skip] is the number of characters of an occurrence, already matched,
    that are still to be passed over. *)
Fixpoint split_from (sep : str) (skip : nat) (s : str) : list str :=
  match s with
  | [] => [[]]
  | c :: s' =>
      match skip with
      | S k => split_from sep k s'
      | O =>
          if prefixb sep s
          then [] :: split_from sep (length sep - 1) s'
          else cons_head c (split_from sep 0 s')
      end
  end.

Definition split (sep s : str) : list str := split_from sep 0 s.

(** [re.sub(pat, '', s)] for a pattern [pat] that matches exactly one
    non-empty literal: the occurrences found from left to right, without
    overlap, are deleted (one pass; the result is not rescanned). *)
Fixpoint re_sub_empty_from (pat : str) (skip : nat) (s : str) : str :=
  match s with
  | [] => []
  | c :: s' =>
      match skip with
      | S k => re_sub_empty_from pat k s'
      | O =>
          if prefixb pat s
          then re_sub_empty_from pat (length pat - 1) s'
          else c :: re_sub_empty_from pat 0 s'
      end
  end.

Definition re_sub_empty (pat s : str) : str := re_sub_empty_from pat 0 s.

Definition dot : char := 46%N.
Definition space : char := 32%N.

(** [re.sub(r'\.+', '.', s)]: each maximal run of full stops becomes one
    full stop.  [in_run] tells that the previous character was a full
    stop, whose run has already been replaced. *)
Fixpoint re_sub_dots_from (in_run : bool) (s : str) : str :=
  match s with
  | [] => []
  | c :: s' =>
      if (c =? dot)%N
      then if in_run then re_sub_dots_from true s'
           else dot :: re_sub_dots_from true s'
      else c :: re_sub_dots_from false s'
  end.

Definition re_sub_dots (s : str) : str := re_sub_dots_from false s.

(** The characters of the class [[.!?]]. *)
Definition is_terminator (c : char) : bool :=
  ((c =? 46) || (c =? 33) || (c =? 63))%N.

(** [re.split(r'(?<=[.!?])\s+', s)]: a match starts at a white-space
    character that follows a terminator and takes the whole white-space
    run; the pieces between the matches are returned, the terminator
    staying with the piece before.  [prev_term]: the previous character
    is a terminator; [in_match]: a match is being consumed; [cur]: the
    current piece, reversed. *)
Fixpoint re_split_sentences_from
    (prev_term in_match : bool) (cur : str) (s : str) : list str :=
  match s with
  | [] => [rev cur]
  | c :: s' =>
      if in_match && is_space c
      then re_split_sentences_from false true cur s'
      else if prev_term && is_space c
      then rev cur :: re_split_sentences_from false true [] s'
      else re_split_sentences_from (is_terminator c) false (c :: cur) s'
  end.

Definition re_split_sentences (s : str) : list str :=
  re_split_sentences_from false false [] s.

End Py.

Import Py.

(* ================================================================== *)
(** * document_generator.py *)
(* ================================================================== *)

Module DocumentGenerator.

(** The noise marker, the literal matched by [r'\[음악\]']. *)
Definition marker : str := Eval vm_compute in lit "[음악]".

(** The separator [". "]. *)
Definition dot_space : str := [dot; space].

(** One turn of the loop over [sentences]:
    [if sentence and sentence not in unique_sentences:
         unique_sentences.append(sentence)]. *)
Definition unique_step (unique_sentences : list str) (sentence : str)
  : list str :=
  if negb (is_empty sentence)
     && negb (if in_dec str_eq_dec sentence unique_sentences
              then true else false)
  then unique_sentences ++ [sentence]
  else unique_sentences.

Definition unique_sentences (sentences : list str) : list str :=
  fold_left unique_step sentences [].

(** [refine_script(text)] *)
Definition refine_script (text : str) : str :=
  let text := re_sub_empty marker text in
  let sentences := split dot_space text in
  let unique := unique_sentences sentences in
  let refined_text := join dot_space unique in
  let refined_text := re_sub_dots refined_text in
  strip refined_text.

(** The discourse keywords of [split_into_paragraphs]. *)
Definition keywords : list str :=
  Eval vm_compute in
    [lit "그리고"; lit "따라서"; lit "그러나"; lit "그래서"; lit "결론적으로"].

Section Paragraphs.

(** [str.lower], the Unicode lower-casing of the Python runtime.  The
    development holds for whatever this function is. *)
Variable lower : str -> str.

(** [any(keyword in sentence.lower() for keyword in [...])] *)
Definition has_keyword (sentence : str) : bool :=
  existsb (fun keyword => containsb keyword (lower sentence)) keywords.

(** The state of the loop: [(paragraphs, current_paragraph)]. *)
Definition loop_state : Type := (list str * list str)%type.

(** One turn of the loop over [sentences]. *)
Definition paragraph_step (st : loop_state) (sentence : str)
  : loop_state :=
  let '(paragraphs, current_paragraph) := st in
  if negb (is_empty (strip sentence)) then
    let current_paragraph := current_paragraph ++ [sentence] in
    if (5 <=? length current_paragraph)%nat || has_keyword sentence
    then (paragraphs ++ [join [space] current_paragraph], [])
    else (paragraphs, current_paragraph)
  else st.

(** The loop and the flush of what is left in [current_paragraph]. *)
Definition paragraphs_of (sentences : list str) : list str :=
  let '(paragraphs, current_paragraph) :=
    fold_left paragraph_step sentences ([], []) in
  if negb (is_empty_list current_paragraph)
  then paragraphs ++ [join [space] current_paragraph]
  else paragraphs.

(** [split_into_paragraphs(text)] *)
Definition split_into_paragraphs (text : str) : list str :=
  if is_empty text || (length (strip text) <? 30)%nat then []
  else
    let text := re_sub_empty marker text in
    let sentences := re_split_sentences text in
    paragraphs_of sentences.

End Paragraphs.

End DocumentGenerator.

Import DocumentGenerator.

(* ================================================================== *)
(** * Python floats *)
(* ================================================================== *)

(** A finite Python [float] is a binary64 number, hence a rational.  The
    arithmetic of the interpreter rounds each result to the nearest number
    with a 53-bit significand, ties to even.  The exponent range is left
    unbounded: none of the computations below overflows or reaches the
    subnormal numbers. *)
Module Float64.

Local Open Scope Q_scope.

Definition pow2 (e : Z) : Q := 2 ^ e.

(** [floor (log2 q)] for [0 < q]. *)
Definition ilog2 (q : Q) : Z :=
  let e := (Z.log2 (Qnum q) - Z.log2 (Zpos (Qden q)))%Z in
  if Qle_bool (pow2 e) q then e else (e - 1)%Z.

(** The nearest integer, ties to the even one. *)
Definition round_half_even (q : Q) : Z :=
  let f := Qfloor q in
  match Qcompare (q - inject_Z f) (1 # 2) with
  | Lt => f
  | Gt => (f + 1)%Z
  | Eq => if Z.even f then f else (f + 1)%Z
  end.

(** Rounding to binary64: the significand is scaled into
    [[2^52, 2^53)] and rounded to an integer. *)
Definition rnd (q : Q) : Q :=
  if Qeq_bool q 0 then 0
  else
    let e := (ilog2 (Qabs q) - 52)%Z in
    inject_Z (round_half_even (q * pow2 (- e))) * pow2 e.

(** [q] is a binary64 number. *)
Definition is_float (q : Q) : bool := Qeq_bool (rnd q) q.

Definition fadd (a b : Q) : Q := rnd (a + b).
Definition fsub (a b : Q) : Q := rnd (a - b).
Definition fmul (a b : Q) : Q := rnd (a * b).
Definition fdiv (a b : Q) : Q := rnd (a / b).

(** [float(n)] of an [int]. *)
Definition of_int (n : Z) : Q := rnd (inject_Z n).

Definition Qlt_bool (a b : Q) : bool := negb (Qle_bool b a).

(** Rounding toward zero: [int(x)] of a float, and C's [trunc]. *)
Definition trunc (q : Q) : Z :=
  if Qlt_bool q 0 then Qceiling q else Qfloor q.

(** C's [fmod]: the remainder of the division truncated toward zero;
    it is computed exactly. *)
Definition fmod (vx wx : Q) : Q := vx - wx * inject_Z (trunc (vx / wx)).

(** [vx % wx] ([float_rem] of the interpreter), [wx] not zero: the
    remainder takes the sign of the divisor. *)
Definition float_rem (vx wx : Q) : Q :=
  let mod_ := fmod vx wx in
  if negb (Qeq_bool mod_ 0)
  then if negb (Bool.eqb (Qlt_bool wx 0) (Qlt_bool mod_ 0))
       then fadd mod_ wx else mod_
  else 0.

(** [vx // wx] ([float_floor_div] of the interpreter), [wx] not zero:
    the quotient [(vx - mod_) / wx] is computed in floating point and
    then snapped to the nearest integral value. *)
Definition float_floor_div (vx wx : Q) : Q :=
  let mod_ := fmod vx wx in
  let div := fdiv (fsub vx mod_) wx in
  let div :=
    if negb (Qeq_bool mod_ 0)
       && negb (Bool.eqb (Qlt_bool wx 0) (Qlt_bool mod_ 0))
    then fsub div 1 else div in
  if negb (Qeq_bool div 0) then
    let floordiv := inject_Z (Qfloor div) in
    if Qlt_bool (1 # 2) (fsub div floordiv)
    then fadd floordiv 1 else floordiv
  else 0.

End Float64.

Import Float64.

(* ================================================================== *)
(** * translator.py *)
(* ================================================================== *)

Module Translator.

(** [set([chr(c) for c in range(0xAC00, 0xD7A4)])], as a membership
    test; the upper end of a [range] is excluded. *)
Definition korean_chars (c : char) : bool :=
  ((0xAC00 <=? c) && (c <? 0xD7A4))%N.

(** [range(0x3040, 0x30FF)] *)
Definition japanese_chars (c : char) : bool :=
  ((0x3040 <=? c) && (c <? 0x30FF))%N.

(** [range(0x4E00, 0x9FFF)] *)
Definition chinese_chars (c : char) : bool :=
  ((0x4E00 <=? c) && (c <? 0x9FFF))%N.

(** [set('abcdefghijklmnopqrstuvwxyzABCDEFGHIJKLMNOPQRSTUVWXYZ')] *)
Definition english_chars (c : char) : bool :=
  existsb (N.eqb c)
    (lit "abcdefghijklmnopqrstuvwxyzABCDEFGHIJKLMNOPQRSTUVWXYZ").

(** [sum(l)] *)
Definition py_sum (l : list Z) : Z := fold_left Z.add l 0%Z.

(** [sum(1 for c in text if c in chars)] *)
Definition count (chars : char -> bool) (text : str) : Z :=
  py_sum (map (fun _ => 1%Z) (filter chars text)).

(** A [dict] from strings to integers, in insertion order. *)
Definition dict : Type := list (str * Z).

(** [d.get(k)] *)
Fixpoint get (d : dict) (k : str) : option Z :=
  match d with
  | [] => None
  | (k', v) :: d' => if str_eq_dec k k' then Some v else get d' k
  end.

(** The scan of [max(..., key=f)] after its first element: a later
    element replaces the best one only when its key is strictly
    greater.  A key that is [None] cannot be compared: the call
    raises, which is [None] here. *)
Fixpoint max_scan (f : str -> option Z) (best : str) (best_key : Z)
    (ks : list str) : option str :=
  match ks with
  | [] => Some best
  | k :: ks' =>
      match f k with
      | None => None
      | Some v =>
          if (best_key <? v)%Z then max_scan f k v ks'
          else max_scan f best best_key ks'
      end
  end.

(** [max(d, key=d.get)]: iterating a [dict] yields its keys; [max] of
    an empty iterable raises. *)
Definition max_by_get (d : dict) : option str :=
  match map fst d with
  | [] => None
  | k :: ks =>
      match get d k with
      | None => None
      | Some v => max_scan (get d) k v ks
      end
  end.

(** The literal [0.05]: the binary64 number nearest to 1/20. *)
Definition lit_0_05 : Q := Eval vm_compute in rnd (5 # 100)%Q.

(** [i < x] for an [int] and a [float]: the comparison is exact. *)
Definition int_lt_float (i : Z) (x : Q) : bool := Qlt_bool (inject_Z i) x.

Definition ko : str := Eval vm_compute in lit "ko".
Definition ja : str := Eval vm_compute in lit "ja".
Definition zh : str := Eval vm_compute in lit "zh".
Definition en : str := Eval vm_compute in lit "en".

(** [counts] of [detect_language(text)] *)
Definition counts_of (text : str) : dict :=
  [ (ko, count korean_chars text);
    (ja, count japanese_chars text);
    (zh, count chinese_chars text);
    (en, count english_chars text) ].

(** [detect_language(text)]; [None] stands for a raised exception. *)
Definition detect_language (text : str) : option str :=
  let counts := counts_of text in
  match max_by_get counts with
  | None => None
  | Some max_lang =>
      match get counts max_lang with
      | None => None
      | Some c =>
          if int_lt_float c
               (fmul (of_int (Z.of_nat (length text))) lit_0_05)
          then Some en
          else Some max_lang
      end
  end.

End Translator.

Import Translator.

(* ================================================================== *)
(** * transcriber.py *)
(* ================================================================== *)

Module Transcriber.

Fixpoint uint_chars (u : Decimal.uint) : str :=
  match u with
  | Decimal.Nil => []
  | Decimal.D0 u => 48%N :: uint_chars u
  | Decimal.D1 u => 49%N :: uint_chars u
  | Decimal.D2 u => 50%N :: uint_chars u
  | Decimal.D3 u => 51%N :: uint_chars u
  | Decimal.D4 u => 52%N :: uint_chars u
  | Decimal.D5 u => 53%N :: uint_chars u
  | Decimal.D6 u => 54%N :: uint_chars u
  | Decimal.D7 u => 55%N :: uint_chars u
  | Decimal.D8 u => 56%N :: uint_chars u
  | Decimal.D9 u => 57%N :: uint_chars u
  end.

(** The decimal digits of a natural number, without leading zeros
    (["0"] for zero). *)
Definition decimal (n : N) : str := uint_chars (N.to_uint n).

(** [f"{z:02d}"]: decimal, padded with zeros on the left to a width of
    two characters, the sign counting in the width. *)
Definition format_02d (z : Z) : str :=
  if (z <? 0)%Z then 45%N :: decimal (Z.abs_N z)
  else
    let ds := decimal (Z.to_N z) in
    repeat 48%N (2 - length ds) ++ ds.

Definition colon : char := 58%N.

(** The three integers that [format_time] prints. *)
Definition time_fields (seconds : Q) : Z * Z * Z :=
  let hours := trunc (float_floor_div seconds 3600%Q) in
  let minutes :=
    trunc (float_floor_div (float_rem seconds 3600%Q) 60%Q) in
  let seconds := trunc (float_rem seconds 60%Q) in
  (hours, minutes, seconds).

(** [format_time(seconds)] for a finite [seconds]. *)
Definition format_time (seconds : Q) : str :=
  let '(hours, minutes, seconds) := time_fields seconds in
  format_02d hours ++ [colon] ++ format_02d minutes ++ [colon]
    ++ format_02d seconds.

(** Reading back a decimal numeral: [None] unless all characters are
    digits. *)
Fixpoint chars_uint (s : str) : option Decimal.uint :=
  match s with
  | [] => Some Decimal.Nil
  | c :: s' =>
      match chars_uint s' with
      | None => None
      | Some u =>
          match c with
          | 48%N => Some (Decimal.D0 u)
          | 49%N => Some (Decimal.D1 u)
          | 50%N => Some (Decimal.D2 u)
          | 51%N => Some (Decimal.D3 u)
          | 52%N => Some (Decimal.D4 u)
          | 53%N => Some (Decimal.D5 u)
          | 54%N => Some (Decimal.D6 u)
          | 55%N => Some (Decimal.D7 u)
          | 56%N => Some (Decimal.D8 u)
          | 57%N => Some (Decimal.D9 u)
          | _ => None
          end
      end
  end.

(** The number a non-empty string of decimal digits denotes. *)
Definition decimal_value (s : str) : option N :=
  match s with
  | [] => None
  | _ => option_map N.of_uint (chars_uint s)
  end.

End Transcriber.

Import Transcriber.

(* ================================================================== *)
(** * downloader.py *)
(* ================================================================== *)

Module Downloader.

(** The characters of the class that [clean_filename] deletes:
    backslash, slash, asterisk, question mark, colon, double quote,
    less-than, greater-than and vertical bar. *)
Definition invalid_chars : str :=
  [92; 47; 42; 63; 58; 34; 60; 62; 124]%N.

Definition is_invalid (c : char) : bool := existsb (N.eqb c) invalid_chars.

(** [clean_filename(filename)]: [re.sub] of a one-character class by
    [""] deletes every character of the class. *)
Definition clean_filename (filename : str) : str :=
  filter (fun c => negb (is_invalid c)) filename.

(** [l[i]] on a list, with Python's negative indices; [None] stands
    for [IndexError]. *)
Definition py_index (A : Type) (l : list A) (i : Z) : option A :=
  let n := Z.of_nat (length l) in
  if (0 <=? i)%Z then nth_error l (Z.to_nat i)
  else if (0 <=? n + i)%Z then nth_error l (Z.to_nat (n + i))
  else None.

Definition youtu_be : str := Eval vm_compute in lit "youtu.be".
Definition youtube_com : str := Eval vm_compute in lit "youtube.com".
Definition slash : str := Eval vm_compute in lit "/".
Definition question : str := Eval vm_compute in lit "?".
Definition v_equals : str := Eval vm_compute in lit "v=".
Definition ampersand : str := Eval vm_compute in lit "&".

(** [get_video_id(url)]; [None] stands for a raised [IndexError]. *)
Definition get_video_id (url : str) : option str :=
  if containsb youtu_be url then
    match py_index (split slash url) (-1) with
    | None => None
    | Some last => py_index (split question last) 0
    end
  else if containsb youtube_com url && containsb v_equals url then
    match py_index (split v_equals url) 1 with
    | None => None
    | Some rest => py_index (split ampersand rest) 0
    end
  else Some url.

End Downloader.

Import Downloader.

(* ================================================================== *)
(** * transcriber.py: the captions *)
(* ================================================================== *)

Module Captions.

(** The values of a caption entry: strings and numbers. *)
Inductive value : Type :=
| Str (s : str)
| Num (x : Q).

(** A caption entry, a [dict] with string keys. *)
Definition caption : Type := list (str * value).

Definition text_key : str := Eval vm_compute in lit "text".
Definition start_key : str := Eval vm_compute in lit "start".

(** [d[k]]; [None] stands for [KeyError]. *)
Fixpoint getitem (d : caption) (k : str) : option value :=
  match d with
  | [] => None
  | (k', v) :: d' => if str_eq_dec k k' then Some v else getitem d' k
  end.

(** [caption["text"]] where a [str] is required: [None] stands for the
    [KeyError] of a missing key or the [TypeError] of a value that is
    not a string. *)
Definition text_of (c : caption) : option str :=
  match getitem c text_key with
  | Some (Str s) => Some s
  | _ => None
  end.

(** [[caption["text"] for caption in captions]], raising at the first
    entry without a text. *)
Fixpoint texts_of (captions : list caption) : option (list str) :=
  match captions with
  | [] => Some []
  | c :: cs =>
      match text_of c with
      | None => None
      | Some t =>
          match texts_of cs with
          | None => None
          | Some ts => Some (t :: ts)
          end
      end
  end.

Section Meaningful.

(** [str.isalnum] on one character, a table of the Python runtime. *)
Variable isalnum : char -> bool.

(** [len("".join(c for c in total_text if c.isalnum()))] *)
Definition meaningful_length (total_text : str) : nat :=
  length (filter isalnum total_text).

(** [check_meaningful_captions(captions)]; [None] stands for a raised
    exception. *)
Definition check_meaningful_captions (captions : list caption)
  : option bool :=
  if is_empty_list captions then Some false
  else
    match texts_of captions with
    | None => None
    | Some texts =>
        let total_text := join [space] texts in
        Some (20 <=? meaningful_length total_text)%nat
    end.

End Meaningful.

End Captions.

Import Captions.

(* ================================================================== *)
(** * translator.py: the calls to the translation service *)
(* ================================================================== *)

Module Translation.

Section Service.

(** The state of what lies outside the program: the environment that
    holds the API key and the remote model. *)
Variable world : Type.

(** [configure_genai(api_key)], which reads the environment. *)
Variable configure_genai : option str -> world -> bool * world.

(** The text of [model.generate_content(prompt)], for the model built
    with the generation settings ([true]) or the default one of the
    retry ([false]); [None] stands for any exception raised on the
    way. *)
Variable generate_content : bool -> str -> world -> option str * world.

(** The prompt of [translate_text], an f-string. *)
Definition prompt_of (text source_lang target_lang : str) : str :=
  lit "
Please translate the following text from " ++ source_lang
  ++ lit " to " ++ target_lang
  ++ lit ".
Maintain the original meaning, tone, and context as closely as possible.
Ensure the translation is natural and fluent in " ++ target_lang
  ++ lit ".

Text to translate:
" ++ text ++ lit "

Translation:
".

(** [translate_text(text, source_lang, target_lang, api_key)]; [None]
    stands for a raised [TranslationError].  The pause before the retry
    and the messages printed are left out. *)
Definition translate_text
    (text source_lang target_lang : str) (api_key : option str)
    (w : world) : option str * world :=
  let '(configured, w) := configure_genai api_key w in
  if negb configured then (None, w)
  else if (length (strip text) <? 5)%nat then (Some text, w)
  else
    let prompt := prompt_of text source_lang target_lang in
    match generate_content true prompt w with
    | (Some translated_text, w) => (Some (strip translated_text), w)
    | (None, w) =>
        match generate_content false prompt w with
        | (Some translated_text, w) => (Some (strip translated_text), w)
        | (None, w) => (None, w)
        end
    end.

(** One turn of the loop of [translate_paragraphs]: a failed
    translation is replaced by the paragraph itself. *)
Definition translate_step
    (source_lang target_lang : str) (api_key : option str)
    (st : list str * world) (paragraph : str) : list str * world :=
  let '(translated_paragraphs, w) := st in
  if negb (is_empty (strip paragraph)) then
    match translate_text paragraph source_lang target_lang api_key w with
    | (Some translated, w) => (translated_paragraphs ++ [translated], w)
    | (None, w) => (translated_paragraphs ++ [paragraph], w)
    end
  else (translated_paragraphs ++ [[]], w).

(** [translate_paragraphs(paragraphs, source_lang, target_lang,
    api_key)]; [None] stands for a raised [TranslationError]. *)
Definition translate_paragraphs
    (paragraphs : list str) (source_lang target_lang : str)
    (api_key : option str) (w : world) : option (list str) * world :=
  let '(configured, w) := configure_genai api_key w in
  if negb configured then (None, w)
  else
    let '(translated_paragraphs, w) :=
      fold_left (translate_step source_lang target_lang api_key)
        paragraphs ([], w) in
    (Some translated_paragraphs, w).

End Service.

End Translation.

Import Translation.

(* ================================================================== *)
(** * document_generator.py: the text of the script document *)
(* ================================================================== *)

Module ScriptDocument.

(** The notice that stands for captions that are too short. *)
Definition insufficient_notice : str :=
  Eval vm_compute in
    lit "※ 이 동영상에는 충분한 자막이 없습니다. 자동 생성된 자막이 제한적이거나 없는 경우입니다.".

(** The placeholder for an empty script. *)
Definition no_captions : str := Eval vm_compute in lit "자막이 없습니다.".

(** One turn of [full_text += caption['text'] + " "]. *)
Definition full_text_step (full_text : option str) (c : caption)
  : option str :=
  match full_text with
  | None => None
  | Some t =>
      match text_of c with
      | None => None
      | Some text => Some (t ++ text ++ [space])
      end
  end.

(** [full_text] of [create_script_document] after the loop over the
    captions. *)
Definition full_text_of (captions : list caption) : option str :=
  if negb (is_empty_list captions)
  then fold_left full_text_step captions (Some [])
  else Some [].

(** [not captions or len(full_text.strip()) < 30] *)
Definition insufficient (captions : list caption) (full_text : str)
  : bool :=
  is_empty_list captions || (length (strip full_text) <? 30)%nat.

(** [full_text] of [create_script_document] when the script is
    refined: the notice replaces insufficient captions. *)
Definition script_source (captions : list caption) : option str :=
  match full_text_of captions with
  | None => None
  | Some full_text =>
      Some (if insufficient captions full_text
            then insufficient_notice else full_text)
  end.

(** [refined_script] of [create_script_document]. *)
Definition refined_script_of (captions : list caption) : option str :=
  match script_source captions with
  | None => None
  | Some full_text =>
      Some (if negb (is_empty (strip full_text))
            then refine_script full_text else no_captions)
  end.

(** The test that guards the call of [translate_text]:
    [translate and source_lang != 'ko' and
     len(refined_script.strip()) > 30]. *)
Definition translation_wanted (translate : bool) (refined_script : str)
  : option bool :=
  match detect_language refined_script with
  | None => None
  | Some source_lang =>
      Some (translate
            && negb (if str_eq_dec source_lang ko then true else false)
            && (30 <? length (strip refined_script))%nat)
  end.

End ScriptDocument.

Import ScriptDocument.

(* ================================================================== *)
(** * Vocabulary of the properties *)
(* ================================================================== *)

(** [p] occurs in [s] as a substring. *)
Definition occurs (p s : str) : Prop := exists a b, s = a ++ p ++ b.

(** Two consecutive full stops. *)
Definition dot_dot : str := [dot; dot].

(** The candidate sentences of [refine_script(text)]: the pieces of the
    split on [". "], after the removal of the marker. *)
Definition candidates (text : str) : list str :=
  split dot_space (re_sub_empty marker text).

(** The sentences of [split_into_paragraphs(text)]. *)
Definition sentences_of (text : str) : list str :=
  re_split_sentences (re_sub_empty marker text).

(** [sentence.strip()] is not empty: the sentence is accumulated. *)
Definition nonblank (sentence : str) : bool :=
  negb (is_empty (strip sentence)).

(** In the group [g] of sentences, a sentence that has a keyword is the
    last one. *)
Definition keyword_last (lower : str -> str) (g : list str) : Prop :=
  forall pre s post,
    g = pre ++ s :: post -> has_keyword lower s = true -> post = [].

(** The sentences that [split_into_paragraphs(text)] accumulates, in
    order: none when the text is too short, else the non-blank ones. *)
Definition accumulated (text : str) : list str :=
  if is_empty text || (length (strip text) <? 30)%nat then []
  else filter nonblank (sentences_of text).







(** A decimal digit. *)
Definition is_digit (c : char) : Prop := (48 <= c <= 57)%N.

(** A lower-casing of the ASCII letters that leaves every other code
    point alone, as [str.lower] does on text without cased letters
    outside ASCII; it instantiates [lower] in examples. *)
Definition ascii_lower (s : str) : str :=
  map (fun c => if ((65 <=? c) && (c <=? 90))%N then (c + 32)%N else c) s.

Module Spec.

(** Deduplication as the specification words it: a sentence is kept
    only if no sentence kept before is identical to it. *)
Definition keep_step (kept : list str) (sentence : str) : list str :=
  if in_dec str_eq_dec sentence kept then kept else kept ++ [sentence].

Definition first_occurrences (l : list str) : list str :=
  fold_left keep_step l [].

(** The four language codes, in the order of the enumeration. *)
Inductive lang : Type := Ko | Ja | Zh | En.

Definition code (l : lang) : str :=
  match l with Ko => ko | Ja => ja | Zh => zh | En => en end.

Definition rank (l : lang) : nat :=
  match l with Ko => 0 | Ja => 1 | Zh => 2 | En => 3 end.

(** The count that [detect_language] keeps under the code of each
    language, [counts[code l]]: the characters of the text that are in
    the set of the code for that language. *)
Definition count_of (l : lang) (t : str) : Z :=
  match l with
  | Ko => count korean_chars t
  | Ja => count japanese_chars t
  | Zh => count chinese_chars t
  | En => count english_chars t
  end.

(** [w] has the maximal count, and is the first of the enumeration
    among the languages that have it. *)
Definition winner (t : str) (w : lang) : Prop :=
  (forall l, (count_of l t <= count_of w t)%Z) /\
  (forall l, count_of l t = count_of w t -> (rank w <= rank l)%nat).

(** The count is less than 5% of the length: [c < len / 20]. *)
Definition below_5_percent (c : Z) (t : str) : bool :=
  (20 * c <? Z.of_nat (length t))%Z.

(** The classes as the specification names them, by their Unicode
    blocks: the Hangul syllables, [U+AC00] to [U+D7A3]; Hiragana and
    Katakana, [U+3040] to [U+30FF]; the CJK unified ideographs, [U+4E00]
    to [U+9FFF]; the ASCII Latin letters. *)
Definition named_class (l : lang) (c : char) : bool :=
  match l with
  | Ko => (0xAC00 <=? c) && (c <=? 0xD7A3)
  | Ja => (0x3040 <=? c) && (c <=? 0x30FF)
  | Zh => (0x4E00 <=? c) && (c <=? 0x9FFF)
  | En => (0x41 <=? c) && (c <=? 0x5A) || (0x61 <=? c) && (c <=? 0x7A)
  end%N.

(** The number of characters of the text in the class of a language. *)
Definition named_count (l : lang) (t : str) : Z :=
  Z.of_nat (length (filter (named_class l) t)).

(** The language of maximal count, the first of the order ko, ja, zh,
    en among those that have it. *)
Definition first_max (cnt : lang -> Z) : lang :=
  fold_left (fun best l => if (cnt best <? cnt l)%Z then l else best)
    [Ja; Zh; En] Ko.

(** The language as the specification words it: the first maximum of
    the counts of the named classes, forced to [En] when that count is
    less than 5% of the length of the text. *)
Definition detect (t : str) : lang :=
  let w := first_max (fun l => named_count l t) in
  if below_5_percent (named_count w t) t then En else w.

(** Reading a string ["HH:MM:SS"] back: three fields separated by
    colons, each of at least two decimal digits. *)
Definition read_field (s : str) : option N :=
  if (2 <=? length s)%nat then decimal_value s else None.

Definition read_hms (s : str) : option (N * N * N) :=
  match split [colon] s with
  | [hh; mm; ss] =>
      match read_field hh, read_field mm, read_field ss with
      | Some h, Some m, Some s => Some (h, m, s)
      | _, _, _ => None
      end
  | _ => None
  end.

(** The integer part of a non-negative number of seconds. *)
Definition integer_part (seconds : Q) : N := Z.to_N (Qfloor seconds).

(** What is expected of the string [format_time] returns for
    [seconds]. *)
Definition hms_of (seconds : Q) (out : str) : Prop :=
  exists h m s : N,
    read_hms out = Some (h, m, s) /\
    (m <= 59)%N /\ (s <= 59)%N /\
    (h * 3600 + m * 60 + s)%N = integer_part seconds.

End Spec.

(* ================================================================== *)
(** * Vocabulary of the further properties *)
(* ================================================================== *)

(** [l] is [l'] with some elements deleted. *)
Inductive subseq {A : Type} : list A -> list A -> Prop :=
| subseq_nil : subseq [] []
| subseq_skip : forall x l l', subseq l l' -> subseq l (x :: l')
| subseq_keep : forall x l l', subseq l l' -> subseq (x :: l) (x :: l').

(** [a] put in front of the first piece of a split. *)
Definition prepend (a : str) (l : list str) : list str :=
  match l with
  | [] => [a]
  | p :: ps => (a ++ p) :: ps
  end.

Section Outcomes.

Variable world : Type.
Variable configure_genai : option str -> world -> bool * world.
Variable generate_content : bool -> str -> world -> option str * world.
Variables source_lang target_lang : str.
Variable api_key : option str.

(** The entry that [translate_paragraphs] has for one paragraph, with
    the state of the world before and after: the empty string for a
    blank paragraph, without any call; the paragraph itself when the
    configuration fails, when the paragraph has fewer than 5 characters
    once stripped, or when the request and its retry both fail; and
    otherwise the stripped answer of the service to the prompt of the
    paragraph, from the first request or, if that fails, from the
    retry. *)
Inductive entry_of (paragraph : str) (w : world) : str -> world -> Prop :=
| entry_blank :
    nonblank paragraph = false ->
    entry_of paragraph w [] w
| entry_unconfigured w1 :
    nonblank paragraph = true ->
    configure_genai api_key w = (false, w1) ->
    entry_of paragraph w paragraph w1
| entry_short w1 :
    nonblank paragraph = true ->
    configure_genai api_key w = (true, w1) ->
    (length (strip paragraph) < 5)%nat ->
    entry_of paragraph w paragraph w1
| entry_answer w1 answer w2 :
    nonblank paragraph = true ->
    configure_genai api_key w = (true, w1) ->
    (5 <= length (strip paragraph))%nat ->
    generate_content true (prompt_of paragraph source_lang target_lang) w1
      = (Some answer, w2) ->
    entry_of paragraph w (strip answer) w2
| entry_retry w1 w2 answer w3 :
    nonblank paragraph = true ->
    configure_genai api_key w = (true, w1) ->
    (5 <= length (strip paragraph))%nat ->
    generate_content true (prompt_of paragraph source_lang target_lang) w1
      = (None, w2) ->
    generate_content false (prompt_of paragraph source_lang target_lang) w2
      = (Some answer, w3) ->
    entry_of paragraph w (strip answer) w3
| entry_failed w1 w2 w3 :
    nonblank paragraph = true ->
    configure_genai api_key w = (true, w1) ->
    (5 <= length (strip paragraph))%nat ->
    generate_content true (prompt_of paragraph source_lang target_lang) w1
      = (None, w2) ->
    generate_content false (prompt_of paragraph source_lang target_lang) w2
      = (None, w3) ->
    entry_of paragraph w paragraph w3.

(** The entries of a list of paragraphs, one for each, in order, the
    state of the world passing from each paragraph to the next. *)
Inductive entries_of : list str -> world -> list str -> world -> Prop :=
| entries_nil w : entries_of [] w [] w
| entries_cons paragraph paragraphs w entry w1 entries w' :
    entry_of paragraph w entry w1 ->
    entries_of paragraphs w1 entries w' ->
    entries_of (paragraph :: paragraphs) w (entry :: entries) w'.

End Outcomes.

(** A group of sentences that the loop of [split_into_paragraphs]
    closes: it has 5 sentences, or its last sentence has a keyword. *)
Definition closed_group (lower : str -> str) (g : list str) : Prop :=
  length g = 5%nat \/
  exists pre s, g = pre ++ [s] /\ has_keyword lower s = true.

(** The number of the four classes of [detect_language] that a
    character belongs to. *)
Definition class_count (c : char) : nat :=
  ((if korean_chars c then 1 else 0) + (if japanese_chars c then 1 else 0)
   + (if chinese_chars c then 1 else 0)
   + (if english_chars c then 1 else 0))%nat.

(** The ASCII letters and digits, as [str.isalnum] has them on ASCII
    text; it instantiates [isalnum] in examples. *)
Definition ascii_alnum (c : char) : bool :=
  ((48 <=? c) && (c <=? 57) || (65 <=? c) && (c <=? 90)
   || (97 <=? c) && (c <=? 122))%N.

(** A translation service for examples: the configuration succeeds,
    the first attempt fails and the retry answers [" ok "]; the state
    counts the requests. *)
Definition sample_configure (api_key : option str) (w : nat)
  : bool * nat := (true, w).

Definition sample_generate (configured : bool) (prompt : str) (w : nat)
  : option str * nat :=
  if configured then (None, S w) else (Some (lit " ok "), S w).

(* ================================================================== *)
(** * Facts about the string primitives *)
(* ================================================================== *)

Unset Implicit Arguments.

Section Occurrences.

Lemma prefixb_spec (p s : str) :
  prefixb p s = true <-> exists b, s = p ++ b.
Proof.
  revert s; induction p as [|a p IH]; intros s; simpl.
  - split; [intros _; now exists s | reflexivity].
  - destruct s as [|c s].
    + split; [discriminate | intros [b Hb]; discriminate].
    + rewrite andb_true_iff, N.eqb_eq, IH.
      split.
      * intros [-> [b ->]]. now exists b.
      * intros [b Hb]. injection Hb as -> ->. split; [reflexivity | now exists b].
Qed.

Lemma containsb_spec (p s : str) :
  containsb p s = true <-> occurs p s.
Proof.
  induction s as [|c s IH].
  - simpl. rewrite orb_false_r, prefixb_spec. split.
    + intros [b Hb]. now exists [], b.
    + intros [a [b Hab]].
      destruct a; [now exists b | discriminate].
  - change (containsb p (c :: s))
      with (prefixb p (c :: s) || containsb p s).
    rewrite orb_true_iff, prefixb_spec, IH. split.
    + intros [[b Hb] | [a [b Hab]]].
      * now exists [], b.
      * exists (c :: a), b. now rewrite Hab.
    + intros [a [b Hab]]. destruct a as [|c' a].
      * left. now exists b.
      * right. injection Hab as _ ->. now exists a, b.
Qed.

Lemma containsb_false (p s : str) :
  containsb p s = false <-> ~ occurs p s.
Proof.
  rewrite <- containsb_spec. destruct (containsb p s); split; intuition congruence.
Qed.

Lemma occurs_refl (s : str) : occurs s s.
Proof. exists [], []. now rewrite app_nil_r. Qed.

Lemma occurs_trans (p q s : str) : occurs p q -> occurs q s -> occurs p s.
Proof.
  intros [a [b ->]] [a' [b' ->]].
  exists (a' ++ a), (b ++ b'). now rewrite !app_assoc.
Qed.

Lemma occurs_app_l (p a b : str) : occurs p a -> occurs p (a ++ b).
Proof.
  intros [x [y ->]]. exists x, (y ++ b). now rewrite !app_assoc.
Qed.

Lemma occurs_app_r (p a b : str) : occurs p b -> occurs p (a ++ b).
Proof.
  intros [x [y ->]]. exists (a ++ x), y. now rewrite !app_assoc.
Qed.

Lemma occurs_cons (p : str) (c : char) (s : str) :
  occurs p s -> occurs p (c :: s).
Proof. apply (occurs_app_r p [c] s). Qed.

(** An occurrence of [p] in [c :: s] starts at the head or lies in [s]. *)
Lemma occurs_cons_inv (p : str) (c : char) (s : str) :
  occurs p (c :: s) -> prefixb p (c :: s) = true \/ occurs p s.
Proof.
  intros H. apply containsb_spec in H.
  change (containsb p (c :: s))
    with (prefixb p (c :: s) || containsb p s) in H.
  apply orb_true_iff in H. rewrite containsb_spec in H. exact H.
Qed.

(** A prefix of [x ++ c :: y] that does not contain [c] is a prefix
    of [x]. *)
Lemma prefix_before_char (p x y : str) (c : char) :
  ~ In c p -> (exists r, x ++ c :: y = p ++ r) -> exists r, x = p ++ r.
Proof.
  revert x; induction p as [|e p IH]; intros x Hc [r Hr].
  - now exists x.
  - destruct x as [|f x]; simpl in Hr; injection Hr as -> Hr.
    + exfalso. apply Hc. now left.
    + destruct (IH x) as [r' ->].
      * intros Hin. apply Hc. now right.
      * now exists r.
      * now exists r'.
Qed.

(** A string without the character [c] that occurs in [a ++ c :: b]
    occurs on one side of [c]. *)
Lemma occurs_split_at (p a b : str) (c : char) :
  ~ In c p -> occurs p (a ++ c :: b) -> occurs p a \/ occurs p b.
Proof.
  intros Hc. induction a as [|d a IH]; intros H.
  - apply occurs_cons_inv in H as [H | H]; [ | now right ].
    apply prefixb_spec in H.
    destruct (prefix_before_char p [] b c Hc H) as [r Hr].
    left. exists [], r. exact Hr.
  - change ((d :: a) ++ c :: b) with (d :: (a ++ c :: b)) in H.
    apply occurs_cons_inv in H as [H | H].
    + apply prefixb_spec in H.
      destruct (prefix_before_char p (d :: a) b c Hc H) as [r Hr].
      left. exists [], r. exact Hr.
    + destruct (IH H) as [Ha | Hb]; [left | now right].
      now apply occurs_cons.
Qed.

End Occurrences.

Section Strip.

Lemma lstrip_suffix (s : str) : exists a, s = a ++ lstrip s.
Proof.
  induction s as [|c s [a IH]]; simpl.
  - now exists [].
  - destruct (is_space c).
    + exists (c :: a). simpl. now rewrite <- IH.
    + now exists [].
Qed.

Lemma rstrip_prefix (s : str) : exists b, s = rstrip s ++ b.
Proof.
  unfold rstrip. destruct (lstrip_suffix (rev s)) as [a Ha].
  exists (rev a). rewrite <- rev_app_distr, <- Ha. now rewrite rev_involutive.
Qed.

(** The stripped string is a substring of the string. *)
Lemma strip_occurs (s : str) : occurs (strip s) s.
Proof.
  unfold strip. destruct (lstrip_suffix s) as [a Ha].
  destruct (rstrip_prefix (lstrip s)) as [b Hb].
  exists a, b. now rewrite <- Hb.
Qed.


Lemma lstrip_head (s : str) :
  lstrip s = [] \/ exists c r, lstrip s = c :: r /\ is_space c = false.
Proof.
  induction s as [|c s IH]; simpl.
  - now left.
  - destruct (is_space c) eqn:E; [exact IH | right; now exists c, s].
Qed.

Lemma lstrip_snoc (s : str) (c : char) :
  is_space c = false -> lstrip (s ++ [c]) = lstrip s ++ [c].
Proof.
  intros H. induction s as [|d s IH]; simpl.
  - now rewrite H.
  - destruct (is_space d); [exact IH | reflexivity].
Qed.

Lemma rstrip_cons (c : char) (s : str) :
  is_space c = false -> rstrip (c :: s) = c :: rstrip s.
Proof.
  intros H. unfold rstrip. simpl.
  rewrite (lstrip_snoc _ _ H), rev_app_distr. reflexivity.
Qed.




End Strip.

Section SplitJoin.

Variable sep : str.

Lemma split_from_nonempty (k : nat) (s : str) : split_from sep k s <> [].
Proof.
  revert k; induction s as [|c s IH]; intros k; simpl.
  - discriminate.
  - destruct k; [ | apply IH ].
    destruct (prefixb sep (c :: s)); [discriminate | ].
    destruct (split_from sep 0 s); discriminate.
Qed.

Lemma join_cons (p : str) (l : list str) :
  l <> [] -> join sep (p :: l) = p ++ sep ++ join sep l.
Proof. destruct l; [congruence | reflexivity]. Qed.

Lemma join_cons_head (c : char) (l : list str) :
  l <> [] -> join sep (cons_head c l) = c :: join sep l.
Proof.
  destruct l as [|p [|q l]]; [congruence | reflexivity | reflexivity].
Qed.

(** Joining the pieces of a split with the separator gives the text
    back (here from the position the split starts at). *)
Lemma join_split_from (k : nat) (s : str) :
  sep <> [] -> join sep (split_from sep k s) = skipn k s.
Proof.
  intros Hsep. revert k; induction s as [|c s IH]; intros k.
  - now destruct k.
  - destruct k as [|k]; [ | exact (IH k) ].
    cbn [split_from skipn].
    destruct (prefixb sep (c :: s)) eqn:E.
    + rewrite join_cons by apply split_from_nonempty.
      rewrite IH. apply prefixb_spec in E as [r Hr].
      destruct sep as [|d sep']; [congruence | ].
      injection Hr as -> ->. simpl.
      rewrite Nat.sub_0_r, skipn_app, skipn_all, Nat.sub_diag. reflexivity.
    + rewrite join_cons_head by apply split_from_nonempty.
      now rewrite IH.
Qed.

Lemma join_split (s : str) : sep <> [] -> join sep (split sep s) = s.
Proof. intros H. exact (join_split_from 0 s H). Qed.

(** Every element of a list occurs in its join. *)
Lemma In_join_occurs (p : str) (l : list str) :
  In p l -> occurs p (join sep l).
Proof.
  induction l as [|q l IH]; [contradiction | ].
  intros [-> | H].
  - destruct l; [apply occurs_refl | ].
    rewrite join_cons by discriminate. apply occurs_app_l, occurs_refl.
  - destruct l; [contradiction | ].
    rewrite join_cons by discriminate.
    apply occurs_app_r, occurs_app_r. now apply IH.
Qed.

(** Every piece of a split is a substring of the text. *)
Lemma split_piece_occurs (p s : str) :
  sep <> [] -> In p (split sep s) -> occurs p s.
Proof.
  intros Hsep H. rewrite <- (join_split s Hsep). now apply In_join_occurs.
Qed.

End SplitJoin.

Section SplitMore.

Variable sep : str.
Hypothesis sep_nonempty : sep <> [].

Lemma split_from_skip (k : nat) (s : str) :
  split_from sep k s = split sep (skipn k s).
Proof.
  revert k; induction s as [|c s IH]; intros k.
  - now destruct k.
  - destruct k as [|k]; [reflexivity | ]. simpl. apply IH.
Qed.

Lemma split_cons_other (c : char) (s : str) :
  prefixb sep (c :: s) = false ->
  split sep (c :: s) = cons_head c (split sep s).
Proof. intros H. unfold split. cbn [split_from]. now rewrite H. Qed.

Lemma prefixb_app (x : str) : prefixb sep (sep ++ x) = true.
Proof. apply prefixb_spec. now exists x. Qed.

Lemma split_sep_app (x : str) : split sep (sep ++ x) = [] :: split sep x.
Proof.
  unfold split. destruct sep as [|d sep'] eqn:E; [congruence | ].
  cbn [app split_from].
  assert (P : prefixb (d :: sep') (d :: sep' ++ x) = true).
  { apply prefixb_spec. now exists x. }
  rewrite P. f_equal. rewrite <- E, split_from_skip, E. f_equal.
  cbn [length]. rewrite Nat.sub_succ, Nat.sub_0_r.
  rewrite skipn_app, skipn_all, Nat.sub_diag. reflexivity.
Qed.

(** Without an occurrence of the separator the text is the only piece. *)
Lemma split_absent (s : str) : containsb sep s = false -> split sep s = [s].
Proof.
  induction s as [|c s IH]; [reflexivity | ].
  change (containsb sep (c :: s))
    with (prefixb sep (c :: s) || containsb sep s).
  intros H. apply orb_false_iff in H as [H1 H2].
  rewrite (split_cons_other _ _ H1), (IH H2). reflexivity.
Qed.

(** The pieces hold no occurrence of the separator, and the first piece
    starts the text. *)
Lemma split_from_pieces (s : str) :
  forall k,
    (forall p, In p (split_from sep k s) -> containsb sep p = false) /\
    (k = 0%nat -> exists p ps r, split_from sep k s = p :: ps /\ s = p ++ r).
Proof.
  induction s as [|c s IH]; intros k.
  - split.
    + destruct k; simpl; intros p [<- | []]; destruct sep; congruence || reflexivity.
    + intros _. now exists [], [], [].
  - destruct k as [|k].
    + cbn [split_from]. destruct (prefixb sep (c :: s)) eqn:E.
      * split.
        -- intros p [<- | Hp].
           ++ destruct sep; [congruence | reflexivity].
           ++ now apply (proj1 (IH _)) in Hp.
        -- intros _. exists [], (split_from sep (length sep - 1) s), (c :: s).
           now split.
      * destruct (IH 0%nat) as [IH1 IH2].
        destruct (IH2 eq_refl) as [p0 [ps [r [Hl Hs]]]].
        rewrite Hl in *. cbn [cons_head]. split.
        -- intros p [<- | Hp]; [ | apply IH1; now right ].
           change (containsb sep (c :: p0))
             with (prefixb sep (c :: p0) || containsb sep p0).
           rewrite (IH1 p0) by now left. rewrite orb_false_r.
           destruct (prefixb sep (c :: p0)) eqn:E'; [ | reflexivity ].
           apply prefixb_spec in E' as [r' Hr'].
           assert (prefixb sep (c :: s) = true); [ | congruence ].
           apply prefixb_spec. exists (r' ++ r).
           rewrite Hs, app_assoc, <- Hr'. reflexivity.
        -- intros _. exists (c :: p0), ps, r. split; [reflexivity | ].
           now rewrite Hs.
    + split; [ | discriminate ]. cbn [split_from]. apply IH.
Qed.

Lemma split_pieces_clean (s p : str) :
  In p (split sep s) -> containsb sep p = false.
Proof. apply (proj1 (split_from_pieces s 0)). Qed.

(** A text that holds the separator splits into two pieces at least. *)
Lemma split_present (s : str) :
  containsb sep s = true -> exists p q l, split sep s = p :: q :: l.
Proof.
  induction s as [|c s IH].
  - simpl. rewrite orb_false_r. destruct sep; [congruence | discriminate].
  - change (containsb sep (c :: s))
      with (prefixb sep (c :: s) || containsb sep s).
    destruct (prefixb sep (c :: s)) eqn:E.
    + intros _. unfold split. cbn [split_from]. rewrite E.
      destruct (split_from sep (length sep - 1) s) as [|q l] eqn:F.
      * now apply split_from_nonempty in F.
      * now exists [], q, l.
    + simpl. intros H. destruct (IH H) as [p [q [l Hl]]].
      rewrite (split_cons_other _ _ E), Hl. now exists (c :: p), q, l.
Qed.

End SplitMore.

Section SplitPrepend.

Lemma prepend_nil (l : list str) : l <> [] -> prepend [] l = l.
Proof. destruct l; [congruence | reflexivity]. Qed.

Lemma cons_head_prepend (c : char) (a : str) (l : list str) :
  l <> [] -> cons_head c (prepend a l) = prepend (c :: a) l.
Proof. destruct l; [congruence | reflexivity]. Qed.

(** A part of the text without the one-character separator stays in
    front of the first piece of what follows. *)
Lemma split1_prepend (c : char) (a b : str) :
  ~ In c a -> split [c] (a ++ b) = prepend a (split [c] b).
Proof.
  intros H. induction a as [|d a IH].
  - simpl. symmetry. apply prepend_nil, split_from_nonempty.
  - simpl app. rewrite split_cons_other.
    + rewrite IH by (intros Hin; apply H; now right).
      apply cons_head_prepend, split_from_nonempty.
    + simpl. rewrite andb_true_r. apply N.eqb_neq.
      intros ->. apply H. now left.
Qed.

(** The same for a separator of two characters, when no occurrence
    straddles the two parts. *)
Lemma split2_prepend (c1 c2 : char) (a b : str) :
  containsb [c1; c2] a = false -> (forall r, b <> c2 :: r) ->
  split [c1; c2] (a ++ b) = prepend a (split [c1; c2] b).
Proof.
  intros H Hb. induction a as [|d a IH].
  - simpl. symmetry. apply prepend_nil, split_from_nonempty.
  - change (containsb [c1; c2] (d :: a))
      with (prefixb [c1; c2] (d :: a) || containsb [c1; c2] a) in H.
    apply orb_false_iff in H as [H1 H2].
    simpl app. rewrite split_cons_other.
    + rewrite (IH H2). apply cons_head_prepend, split_from_nonempty.
    + destruct a as [|e a]; simpl in *.
      * destruct b as [|e b]; [now rewrite andb_false_r | ].
        destruct (N.eqb_spec c2 e) as [-> | _];
          [exfalso; now apply (Hb b) | now rewrite andb_false_r].
      * exact H1.
Qed.

End SplitPrepend.

Section Substitutions.


(** The result of collapsing the runs has no two consecutive full
    stops; after a full stop it does not start with one. *)
Lemma re_sub_dots_from_no_run (b : bool) (s : str) :
  ~ occurs dot_dot (re_sub_dots_from b s) /\
  (b = true -> forall r, re_sub_dots_from b s <> dot :: r).
Proof.
  revert b; induction s as [|c s IH]; intros b; cbn [re_sub_dots_from].
  - split; [ | discriminate ].
    intros [a [x H]]. destruct a; discriminate.
  - destruct (N.eqb_spec c dot) as [-> | Hc].
    + destruct b.
      * apply IH.
      * destruct (IH true) as [IH1 IH2]. split; [ | discriminate ].
        intros H. apply occurs_cons_inv in H as [H | H]; [ | tauto ].
        apply prefixb_spec in H as [r Hr]. injection Hr as Hr.
        exact (IH2 eq_refl r Hr).
    + destruct (IH false) as [IH1 _]. split.
      * intros H. apply occurs_cons_inv in H as [H | H]; [ | tauto ].
        apply prefixb_spec in H as [r Hr]. injection Hr as Hr _.
        congruence.
      * intros _ r Hr. injection Hr as Hr _. congruence.
Qed.

Lemma re_sub_dots_no_run (s : str) :
  containsb dot_dot (re_sub_dots s) = false.
Proof. apply containsb_false, (re_sub_dots_from_no_run false s). Qed.

Lemma re_sub_dots_from_prefix (m s : str) :
  ~ In dot m ->
  prefixb m (re_sub_dots_from false s) = true -> prefixb m s = true.
Proof.
  revert s; induction m as [|e m IH]; intros s Hm; [reflexivity | ].
  destruct s as [|c s]; cbn [re_sub_dots_from]; [discriminate | ].
  destruct (N.eqb_spec c dot) as [-> | Hc]; cbn [prefixb].
  - intros H. apply andb_true_iff in H as [H _].
    apply N.eqb_eq in H. exfalso. apply Hm. now left.
  - intros H. apply andb_true_iff in H as [H1 H2]. rewrite H1. simpl.
    apply IH; [ | exact H2 ]. intros Hin. apply Hm. now right.
Qed.

(** Collapsing the runs of full stops creates no occurrence of a
    string that has no full stop. *)
Lemma re_sub_dots_from_occurs (m : str) (b : bool) (s : str) :
  ~ In dot m -> occurs m (re_sub_dots_from b s) -> occurs m s.
Proof.
  intros Hm. revert b; induction s as [|c s IH]; intros b;
    cbn [re_sub_dots_from]; [tauto | ].
  destruct (N.eqb_spec c dot) as [-> | Hc].
  - destruct b.
    + intros H. apply occurs_cons. exact (IH true H).
    + intros H.
      destruct (occurs_split_at m [] _ dot Hm H) as [H0 | H1].
      * now apply (occurs_app_l m [] (dot :: s)).
      * apply occurs_cons. exact (IH true H1).
  - intros H. apply occurs_cons_inv in H as [H | H].
    + apply containsb_spec.
      change (containsb m (c :: s))
        with (prefixb m (c :: s) || containsb m s).
      apply orb_true_iff. left.
      destruct m as [|e m]; [reflexivity | ].
      cbn [prefixb] in *. apply andb_true_iff in H as [H1 H2].
      rewrite H1. simpl. apply re_sub_dots_from_prefix; [ | exact H2 ].
      intros Hin. apply Hm. now right.
    + apply occurs_cons. exact (IH false H).
Qed.



(** An occurrence, in a join on [". "], of a non-empty string that has
    neither a full stop nor a space lies within one of the pieces. *)
Lemma join_dot_space_occurs (m : str) (l : list str) :
  m <> [] -> ~ In dot m -> ~ In space m ->
  occurs m (join dot_space l) -> exists p, In p l /\ occurs m p.
Proof.
  intros Hne Hd Hs.
  assert (Hnil : ~ occurs m []).
  { intros [a [b H]]. destruct a; [destruct m | ]; [congruence | | ]; discriminate. }
  induction l as [|p l IH]; cbn [join]; [tauto | ].
  destruct l as [|q l].
  - intros H. exists p. split; [now left | exact H].
  - intros H. change (p ++ dot_space ++ join dot_space (q :: l))
      with (p ++ dot :: ([] ++ space :: join dot_space (q :: l))) in H.
    apply (occurs_split_at _ _ _ _ Hd) in H as [H | H].
    + exists p. split; [now left | exact H].
    + apply (occurs_split_at _ _ _ _ Hs) in H as [H | H]; [tauto | ].
      destruct (IH H) as [p' [Hin Hocc]].
      exists p'. split; [now right | exact Hocc].
Qed.

End Substitutions.

Section Deduplication.

Let nonempty (s : str) : bool := negb (is_empty s).

Lemma unique_step_cases (acc : list str) (s : str) :
  unique_step acc s =
    if nonempty s then Spec.keep_step acc s else acc.
Proof.
  unfold unique_step, Spec.keep_step, nonempty.
  destruct (is_empty s); simpl; [reflexivity | ].
  destruct (in_dec str_eq_dec s acc); reflexivity.
Qed.

Lemma unique_fold_filter (l acc : list str) :
  fold_left unique_step l acc =
  fold_left Spec.keep_step (filter nonempty l) acc.
Proof.
  revert acc; induction l as [|s l IH]; intros acc; [reflexivity | ].
  cbn [fold_left filter]. rewrite unique_step_cases.
  destruct (nonempty s); cbn [fold_left]; apply IH.
Qed.

Lemma unique_fold_In (l acc : list str) (s : str) :
  In s (fold_left unique_step l acc) <->
  In s acc \/ (In s l /\ s <> []).
Proof.
  revert acc; induction l as [|x l IH]; intros acc; cbn [fold_left].
  - simpl. tauto.
  - rewrite IH. unfold unique_step.
    destruct x as [|c x]; simpl.
    + split; [ | intros [H | [[H | H] Hne]]; [ tauto | congruence | tauto ] ].
      tauto.
    + destruct (in_dec str_eq_dec (c :: x) acc) as [Hin | Hnin]; simpl.
      * split; [tauto | ].
        intros [H | [[H | H] Hne]]; [tauto | subst s; tauto | tauto].
      * rewrite in_app_iff. simpl. split.
        -- intros [[H | [H | []]] | H]; [tauto | | tauto].
           right. split; [now left | subst s; discriminate].
        -- intros [H | [[H | H] Hne]]; tauto.
Qed.

Lemma unique_fold_NoDup (l acc : list str) :
  NoDup acc -> NoDup (fold_left unique_step l acc).
Proof.
  revert acc; induction l as [|x l IH]; intros acc H; [exact H | ].
  cbn [fold_left]. apply IH. unfold unique_step.
  destruct (is_empty x); simpl; [exact H | ].
  destruct (in_dec str_eq_dec x acc) as [Hin | Hnin]; simpl; [exact H | ].
  apply NoDup_rev in H. rewrite <- (rev_involutive (acc ++ [x])).
  apply NoDup_rev. rewrite rev_app_distr. simpl.
  constructor; [ | exact H ]. now rewrite <- in_rev.
Qed.


End Deduplication.

Section DotRuns.





End DotRuns.

Section Ends.






End Ends.

Section SplitJoined.


End SplitJoined.

(* ================================================================== *)
(** * refine_script *)
(* ================================================================== *)

Example marker_code_points : marker = [0x5B; 0xC74C; 0xC545; 0x5D]%N.
Proof. reflexivity. Qed.

Example refine_script_empty : refine_script [] = [].
Proof. reflexivity. Qed.

Example refine_script_duplicate :
  refine_script (lit "A. A. B.") = lit "A. B.".
Proof. vm_compute. reflexivity. Qed.

Example refine_script_dot_run :
  refine_script (lit "A... B.") = lit "A. B.".
Proof. vm_compute. reflexivity. Qed.

Section Refine.

Lemma marker_no_dot : ~ In dot marker.
Proof. simpl. intuition discriminate. Qed.

Lemma marker_no_space : ~ In space marker.
Proof. simpl. intuition discriminate. Qed.

Lemma dot_space_nonempty : dot_space <> [].
Proof. discriminate. Qed.

Lemma unique_sentences_incl (l : list str) (s : str) :
  In s (unique_sentences l) -> In s l.
Proof.
  unfold unique_sentences. rewrite unique_fold_In. simpl. tauto.
Qed.

(** Once the one pass of [re.sub] has left no marker, none of the
    later steps of [refine_script] makes one. *)
Lemma refine_script_no_marker (t : str) :
  containsb marker (re_sub_empty marker t) = false ->
  containsb marker (refine_script t) = false.
Proof.
  intros H. apply containsb_false. apply containsb_false in H.
  intros Hocc. apply H. unfold refine_script in Hocc.
  apply (fun h => occurs_trans _ _ _ h (strip_occurs _)) in Hocc.
  apply (re_sub_dots_from_occurs _ _ _ marker_no_dot) in Hocc.
  apply join_dot_space_occurs in Hocc as [p [Hin Hp]];
    [ | discriminate | exact marker_no_dot | exact marker_no_space ].
  apply unique_sentences_incl in Hin.
  apply (split_piece_occurs _ _ _ dot_space_nonempty) in Hin.
  exact (occurs_trans _ _ _ Hp Hin).
Qed.

Lemma refine_script_no_dot_run (t : str) :
  containsb dot_dot (refine_script t) = false.
Proof.
  apply containsb_false. intros H.
  apply (fun h => occurs_trans _ _ _ h (strip_occurs _)) in H.
  apply containsb_spec in H. now rewrite re_sub_dots_no_run in H.
Qed.



Lemma containsb_occurs_false (p a s : str) :
  occurs a s -> containsb p s = false -> containsb p a = false.
Proof.
  intros Ha Hs. apply containsb_false. apply containsb_false in Hs.
  intros Hp. apply Hs. exact (occurs_trans _ _ _ Hp Ha).
Qed.



End Refine.

(** C1, as stated, fails on a marker that the removal of another marker
    splices together: [refine_script("[음[음악]악]")] is ["[음악]"]. *)
Lemma refine_script_spliced_marker :
  let t := lit "[음[음악]악]" in
  refine_script t = marker /\
  ~ (containsb marker (refine_script t) = false /\
     containsb dot_dot (refine_script t) = false).
Proof.
  split; [vm_compute; reflexivity | ].
  intros [H _]. vm_compute in H. discriminate.
Qed.

(** C1 (amended): for every text, the result of [refine_script] has no
    two consecutive full stops; and it has no occurrence of the marker
    whenever the text left by the one pass of marker removal has none. *)
Theorem refine_script_clean (t : str) :
  containsb dot_dot (refine_script t) = false /\
  (containsb marker (re_sub_empty marker t) = false ->
   containsb marker (refine_script t) = false).
Proof.
  split; [apply refine_script_no_dot_run | apply refine_script_no_marker].
Qed.

Lemma refine_script_clean_witness :
  let t := lit "[음악] Hello. [음악] World." in
  containsb marker (re_sub_empty marker t) = false /\
  containsb dot_dot (refine_script t) = false /\
  containsb marker (refine_script t) = false.
Proof.
  intros t. destruct (refine_script_clean t) as [H1 H2].
  assert (H0 : containsb marker (re_sub_empty marker t) = false)
    by (vm_compute; reflexivity).
  split; [exact H0 | split; [exact H1 | exact (H2 H0)]].
Defined.


(** Trimming, too, can undo the deduplication of the input. *)
Example refine_script_not_idempotent_strip :
  let t := lit "B. B " in
  NoDup (split dot_space t) /\
  refine_script t = lit "B. B" /\
  refine_script (refine_script t) = lit "B".
Proof.
  split; [vm_compute; repeat constructor; simpl; intuition discriminate | ].
  split; vm_compute; reflexivity.
Qed.

(** Leading white space can undo it as well. *)
Example refine_script_not_idempotent_lstrip :
  let t := lit " B. B" in
  NoDup (split dot_space t) /\
  refine_script t = lit "B. B" /\
  refine_script (refine_script t) = lit "B".
Proof.
  split; [vm_compute; repeat constructor; simpl; intuition discriminate | ].
  split; vm_compute; reflexivity.
Qed.

(** The empty text and a blank one are fixed from the first pass on. *)
Example refine_script_blank :
  refine_script (refine_script []) = refine_script [] /\
  refine_script (refine_script (lit " ")) = refine_script (lit " ").
Proof. split; vm_compute; reflexivity. Qed.



(** C4, as stated, fails: the loop also drops every empty candidate.
    The candidates of [". A"] are [""] and ["A"]; keeping the first
    occurrence of each would keep both, the code keeps ["A"] alone, so
    the first candidate of the split is not kept. *)
Lemma unique_sentences_drops_empty :
  let text := lit ". A" in
  candidates text = [[]; lit "A"] /\
  Spec.first_occurrences (candidates text) = [[]; lit "A"] /\
  unique_sentences (candidates text) = [lit "A"] /\
  unique_sentences (candidates text)
    <> Spec.first_occurrences (candidates text).
Proof.
  repeat split; try (vm_compute; reflexivity).
  vm_compute. discriminate.
Qed.

(** C4 (amended): the kept sequence consists of exactly the first
    occurrence of every non-empty candidate, in order of first
    occurrence: a candidate is dropped only when it is empty or a kept
    candidate before it is identical to it. *)
Theorem unique_sentences_first_occurrences (sentences : list str) :
  unique_sentences sentences
    = Spec.first_occurrences
        (filter (fun s => negb (is_empty s)) sentences) /\
  NoDup (unique_sentences sentences) /\
  (forall s, In s (unique_sentences sentences)
             <-> In s sentences /\ s <> []) /\
  (forall kept s,
      (s = [] \/ In s kept -> unique_step kept s = kept) /\
      (s <> [] -> ~ In s kept -> unique_step kept s = kept ++ [s])).
Proof.
  split; [apply unique_fold_filter | ].
  split; [apply unique_fold_NoDup; constructor | ].
  split.
  - intros s. unfold unique_sentences. rewrite unique_fold_In.
    simpl. tauto.
  - intros kept s. unfold unique_step.
    destruct s as [|c s]; simpl; [split; [reflexivity | congruence] | ].
    destruct (in_dec str_eq_dec (c :: s) kept); simpl; split;
      try reflexivity; try tauto.
    intros [H | H]; [discriminate | contradiction].
Qed.

Lemma unique_sentences_first_occurrences_witness :
  unique_sentences (candidates (lit "B. . A. B. C"))
    = [lit "B"; lit "A"; lit "C"] /\
  unique_step [lit "B"] (lit "B") = [lit "B"] /\
  unique_step [lit "B"] (lit "A") = [lit "B"; lit "A"].
Proof.
  destruct (unique_sentences_first_occurrences
              (candidates (lit "B. . A. B. C"))) as [H1 [_ [_ H4]]].
  split; [rewrite H1; vm_compute; reflexivity | ].
  split.
  - apply (H4 [lit "B"] (lit "B")). right. now left.
  - apply (H4 [lit "B"] (lit "A")).
    + vm_compute; discriminate.
    + vm_compute. intuition discriminate.
Defined.

(** C5, as stated, fails: the spaces on both sides of the second marker
    stay, so the result has two spaces after ["Hello."]. *)
Lemma refine_script_music_two_spaces :
  refine_script (lit "[음악] Hello. [음악] World.") <> lit "Hello. World.".
Proof. vm_compute. discriminate. Qed.

(** C5 (amended): [refine_script] applied to
    ["[음악] Hello. [음악] World."] returns exactly ["Hello.  World."],
    with two spaces between the sentences. *)
Theorem refine_script_music :
  refine_script (lit "[음악] Hello. [음악] World.") = lit "Hello.  World.".
Proof. vm_compute. reflexivity. Qed.

(* ================================================================== *)
(** * split_into_paragraphs *)
(* ================================================================== *)

Section ParagraphLoop.

Variable lower : str -> str.

(** What the loop guarantees of a flushed group of sentences. *)
Let flushed (g : list str) : Prop :=
  (1 <= length g <= 5)%nat /\
  Forall (fun s => nonblank s = true) g /\
  keyword_last lower g.

(** What it guarantees of [current_paragraph] between two turns. *)
Let pending (cur : list str) : Prop :=
  (length cur < 5)%nat /\
  Forall (fun s => nonblank s = true) cur /\
  Forall (fun s => has_keyword lower s = false) cur.

Lemma snoc_eq_split (A : Type) (l pre post : list A) (a x : A) :
  l ++ [a] = pre ++ x :: post -> post = [] \/ In x l.
Proof.
  revert pre; induction l as [|b l IH]; intros pre H.
  - destruct pre as [|p pre]; simpl in H.
    + injection H as _ <-. now left.
    + injection H as _ H. destruct pre; discriminate.
  - destruct pre as [|p pre]; simpl in H; injection H as -> H.
    + right. now left.
    + destruct (IH _ H) as [-> | Hin]; [now left | right; now right].
Qed.

Lemma pending_snoc_flushed (cur : list str) (s : str) :
  pending cur -> nonblank s = true -> flushed (cur ++ [s]).
Proof.
  intros [Hlen [Hnb Hkw]] Hs. split; [ | split ].
  - rewrite length_app. simpl. lia.
  - apply Forall_app. split; [exact Hnb | now constructor].
  - intros pre x post Heq Hx.
    destruct (snoc_eq_split _ _ _ _ _ _ Heq) as [-> | Hin];
      [reflexivity | ].
    rewrite Forall_forall in Hkw. rewrite (Hkw _ Hin) in Hx.
    discriminate.
Qed.

Lemma pending_flushed (cur : list str) :
  pending cur -> cur <> [] -> flushed cur.
Proof.
  intros [Hlen [Hnb Hkw]] Hne. split; [ | split ].
  - destruct cur; [congruence | simpl in *; lia].
  - exact Hnb.
  - intros pre x post -> Hx. rewrite Forall_forall in Hkw.
    rewrite Hkw in Hx; [discriminate | ].
    apply in_or_app. right. now left.
Qed.

(** The loop keeps the paragraphs equal to the joins of well-formed
    groups, and loses or reorders no accumulated sentence. *)
Lemma paragraph_loop_invariant (sentences : list str) :
  forall (groups : list (list str)) (cur : list str),
    Forall flushed groups -> pending cur ->
    exists groups' cur',
      fold_left (paragraph_step lower) sentences
        (map (join [space]) groups, cur)
      = (map (join [space]) groups', cur') /\
      Forall flushed groups' /\ pending cur' /\
      concat groups' ++ cur'
      = concat groups ++ cur ++ filter nonblank sentences.
Proof.
  induction sentences as [|s sentences IH]; intros groups cur Hg Hc.
  - exists groups, cur. simpl. now rewrite app_nil_r.
  - cbn [fold_left filter]. unfold paragraph_step at 2.
    fold (nonblank s). destruct (nonblank s) eqn:Hs; [ | now apply IH ].
    destruct ((5 <=? length (cur ++ [s]))%nat || has_keyword lower s)
      eqn:Hflush.
    + replace (map (join [space]) groups ++ [join [space] (cur ++ [s])])
        with (map (join [space]) (groups ++ [cur ++ [s]]))
        by (now rewrite map_app).
      destruct (IH (groups ++ [cur ++ [s]]) [])
        as [groups' [cur' [Hfold [Hg' [Hc' Hcat]]]]].
      * apply Forall_app. split; [exact Hg | ].
        constructor; [ | constructor ].
        now apply pending_snoc_flushed.
      * split; [simpl; lia | split; constructor].
      * exists groups', cur'.
        split; [exact Hfold | split; [exact Hg' | split; [exact Hc' | ]]].
        rewrite Hcat, concat_app. simpl.
        now rewrite app_nil_r, <- !app_assoc.
    + apply orb_false_iff in Hflush as [Hlen Hkw].
      apply Nat.leb_gt in Hlen.
      destruct (IH groups (cur ++ [s]))
        as [groups' [cur' [Hfold [Hg' [Hc' Hcat]]]]].
      * exact Hg.
      * destruct Hc as [_ [Hnb Hk]].
        split; [exact Hlen | split; apply Forall_app; split;
                               try assumption; now constructor].
      * exists groups', cur'.
        split; [exact Hfold | split; [exact Hg' | split; [exact Hc' | ]]].
        rewrite Hcat. now rewrite <- !app_assoc.
Qed.

(** The paragraphs are the joins of well-formed groups that partition
    the non-blank sentences. *)
Lemma paragraphs_of_groups (sentences : list str) :
  exists groups,
    paragraphs_of lower sentences = map (join [space]) groups /\
    Forall flushed groups /\
    concat groups = filter nonblank sentences.
Proof.
  destruct (paragraph_loop_invariant sentences [] [])
    as [groups [cur [Hfold [Hg [Hc Hcat]]]]].
  - constructor.
  - split; [simpl; lia | split; constructor].
  - unfold paragraphs_of. simpl in Hfold. rewrite Hfold.
    destruct cur as [|s cur]; simpl.
    + exists groups. rewrite app_nil_r in Hcat. auto.
    + exists (groups ++ [s :: cur]). rewrite map_app. simpl.
      split; [reflexivity | split].
      * apply Forall_app. split; [exact Hg | ].
        constructor; [ | constructor ].
        apply pending_flushed; [exact Hc | discriminate].
      * rewrite concat_app. simpl. now rewrite app_nil_r.
Qed.

Lemma split_into_paragraphs_groups (text : str) :
  exists groups,
    split_into_paragraphs lower text = map (join [space]) groups /\
    Forall flushed groups /\
    concat groups = accumulated text.
Proof.
  unfold split_into_paragraphs, accumulated.
  destruct (is_empty text || (length (strip text) <? 30)%nat).
  - exists []. split; [reflexivity | split; [constructor | reflexivity]].
  - apply paragraphs_of_groups.
Qed.

Lemma nonblank_nonempty (s : str) : nonblank s = true -> s <> [].
Proof. intros H ->. discriminate. Qed.

Lemma join_nonempty (sep : str) (g : list str) :
  (exists s r, g = s :: r /\ s <> []) -> join sep g <> [].
Proof.
  intros [s [r [-> Hs]]]. destruct r; simpl; [exact Hs | ].
  destruct s; [congruence | discriminate].
Qed.

Lemma paragraph_step_keyword (paragraphs cur : list str) (s : str) :
  nonblank s = true -> has_keyword lower s = true ->
  paragraph_step lower (paragraphs, cur) s
  = (paragraphs ++ [join [space] (cur ++ [s])], []).
Proof.
  intros Hs Hk. unfold paragraph_step. fold (nonblank s).
  now rewrite Hs, Hk, orb_true_r.
Qed.

End ParagraphLoop.

Example keywords_code_points :
  keywords =
    [ [0xADF8; 0xB9AC; 0xACE0]; [0xB530; 0xB77C; 0xC11C];
      [0xADF8; 0xB7EC; 0xB098]; [0xADF8; 0xB798; 0xC11C];
      [0xACB0; 0xB860; 0xC801; 0xC73C; 0xB85C] ]%N.
Proof. reflexivity. Qed.

Example split_into_paragraphs_short :
  split_into_paragraphs ascii_lower (lit "Too short. To split.") = [].
Proof. vm_compute. reflexivity. Qed.

(** Five sentences fill a paragraph; a keyword closes one at once. *)
Example split_into_paragraphs_sample :
  split_into_paragraphs ascii_lower
    (lit "One. Two!  Three? Four. Five. Six. 그래서 seven. Eight.  ")
  = [ lit "One. Two! Three? Four. Five.";
      lit "Six. 그래서 seven.";
      lit "Eight." ].
Proof. vm_compute. reflexivity. Qed.

(** C7: the paragraphs that [split_into_paragraphs] returns are the
    joins, with one space, of consecutive groups of the accumulated
    sentences; every group has between 1 and 5 sentences, and every
    paragraph is a non-empty string. *)
Theorem split_into_paragraphs_sizes (lower : str -> str) (text : str) :
  exists groups : list (list str),
    split_into_paragraphs lower text = map (join [space]) groups /\
    concat groups = accumulated text /\
    Forall (fun g => (1 <= length g <= 5)%nat) groups /\
    Forall (fun p => p <> []) (split_into_paragraphs lower text).
Proof.
  destruct (split_into_paragraphs_groups lower text)
    as [groups [H1 [H2 H3]]].
  exists groups. rewrite H1.
  split; [reflexivity | split; [exact H3 | split]].
  - eapply Forall_impl; [ | exact H2 ]. intros g Hg. apply Hg.
  - apply Forall_map. eapply Forall_impl; [ | exact H2 ].
    intros g [Hlen [Hnb _]]. apply join_nonempty.
    destruct g as [|s r]; [simpl in Hlen; lia | ].
    exists s, r. split; [reflexivity | ].
    apply nonblank_nonempty. now inversion Hnb.
Qed.

(** C8: a turn of the loop on a non-blank sentence that has a keyword
    (after lower-casing) flushes the buffer right after that sentence,
    whatever the size of the buffer; and in the result, the groups of
    sentences that make the paragraphs have such a sentence only in
    last position. *)
Theorem split_into_paragraphs_keyword_flush
    (lower : str -> str) (text : str) :
  (forall paragraphs current_paragraph sentence,
      nonblank sentence = true ->
      has_keyword lower sentence = true ->
      paragraph_step lower (paragraphs, current_paragraph) sentence
      = (paragraphs
           ++ [join [space] (current_paragraph ++ [sentence])], [])) /\
  exists groups : list (list str),
    split_into_paragraphs lower text = map (join [space]) groups /\
    concat groups = accumulated text /\
    Forall (keyword_last lower) groups.
Proof.
  split; [intros; now apply paragraph_step_keyword | ].
  destruct (split_into_paragraphs_groups lower text)
    as [groups [H1 [H2 H3]]].
  exists groups. split; [exact H1 | split; [exact H3 | ]].
  eapply Forall_impl; [ | exact H2 ]. intros g Hg. apply Hg.
Qed.

Lemma split_into_paragraphs_keyword_flush_witness :
  paragraph_step ascii_lower
    ([lit "Before."], [lit "First."]) (lit "그러나 second.")
  = ([lit "Before."; lit "First. 그러나 second."], []).
Proof.
  destruct (split_into_paragraphs_keyword_flush ascii_lower []) as [H _].
  apply (H [lit "Before."] [lit "First."] (lit "그러나 second."));
    vm_compute; reflexivity.
Defined.

(* ================================================================== *)
(** * detect_language: the choice of the language *)
(* ================================================================== *)

Section Winner.

Variable text : str.

Lemma get_counts (l : Spec.lang) :
  get (counts_of text) (Spec.code l) = Some (Spec.count_of l text).
Proof.
  destruct l; unfold counts_of, get, Spec.code, Spec.count_of;
    repeat (destruct (str_eq_dec _ _) as [E | E];
            [ try discriminate E | try congruence ]);
    try reflexivity.
Qed.

(** [max(counts, key=counts.get)] is the code of the winner. *)
Lemma max_by_get_winner :
  exists w, Spec.winner text w /\
            max_by_get (counts_of text) = Some (Spec.code w).
Proof.
  pose proof (get_counts Spec.Ko) as Gk.
  pose proof (get_counts Spec.Ja) as Gj.
  pose proof (get_counts Spec.Zh) as Gz.
  pose proof (get_counts Spec.En) as Ge.
  cbn [Spec.code Spec.count_of] in Gk, Gj, Gz, Ge.
  assert (W : forall w,
             (forall l, (Spec.count_of l text
                         <= Spec.count_of w text)%Z) ->
             (forall l, Spec.count_of l text = Spec.count_of w text ->
                        (Spec.rank w <= Spec.rank l)%nat) ->
             Spec.winner text w) by (intros w H1 H2; now split).
  assert (S3 : forall b v,
             max_scan (get (counts_of text)) b v [zh; en]
             = if (v <? count chinese_chars text)%Z
               then (if (count chinese_chars text
                         <? count english_chars text)%Z
                     then Some en else Some zh)
               else (if (v <? count english_chars text)%Z
                     then Some en else Some b)).
  { intros b v. cbn [max_scan]. rewrite Gz.
    destruct (v <? count chinese_chars text)%Z;
      cbn [max_scan]; rewrite Ge;
      match goal with |- context [(?x <? ?y)%Z] =>
        destruct (x <? y)%Z end; reflexivity. }
  assert (S4 : forall b v,
             max_scan (get (counts_of text)) b v [ja; zh; en]
             = if (v <? count japanese_chars text)%Z
               then max_scan (get (counts_of text)) ja
                      (count japanese_chars text) [zh; en]
               else max_scan (get (counts_of text)) b v [zh; en]).
  { intros b v. cbn [max_scan]. rewrite Gj. reflexivity. }
  unfold max_by_get.
  change (map fst (counts_of text)) with [ko; ja; zh; en].
  cbv beta iota. rewrite Gk, S4, !S3.
  repeat match goal with |- context [(?x <? ?y)%Z] =>
           destruct (Z.ltb_spec x y) end.
  all: first
         [ exists Spec.Ko; split; [ | reflexivity ]
         | exists Spec.Ja; split; [ | reflexivity ]
         | exists Spec.Zh; split; [ | reflexivity ]
         | exists Spec.En; split; [ | reflexivity ] ].
  all: apply W; intros []; simpl; lia.
Qed.

(** The two outcomes of [detect_language]. *)
Lemma detect_language_cases :
  exists w, Spec.winner text w /\
    detect_language text =
      if int_lt_float (Spec.count_of w text)
           (fmul (of_int (Z.of_nat (length text))) lit_0_05)
      then Some en else Some (Spec.code w).
Proof.
  destruct max_by_get_winner as [w [Hw Hmax]].
  exists w. split; [exact Hw | ].
  unfold detect_language. rewrite Hmax, get_counts. reflexivity.
Qed.

End Winner.

Example range_bounds :
  korean_chars 0xD7A3%N = true /\ korean_chars 0xD7A4%N = false /\
  japanese_chars 0x30FE%N = true /\ japanese_chars 0x30FF%N = false /\
  chinese_chars 0x9FFE%N = true /\ chinese_chars 0x9FFF%N = false.
Proof. repeat split. Qed.

(** C9: [detect_language] raises on no text, and what it returns is one
    of the four codes ["ko"], ["ja"], ["zh"], ["en"]. *)
Theorem detect_language_total (text : str) :
  exists code : str,
    detect_language text = Some code /\ In code [ko; ja; zh; en].
Proof.
  destruct (detect_language_cases text) as [w [_ ->]].
  destruct (int_lt_float _ _).
  - exists en. split; [reflexivity | simpl; tauto].
  - exists (Spec.code w). split; [reflexivity | ].
    destruct w; simpl; tauto.
Qed.

(** C6: on ["Hello world"] the result is ["en"] and on ["안녕하세요"] it
    is ["ko"]; on the empty text the four counts are 0, the first key
    ["ko"] is the maximum, and [0 < 0 * 0.05] is false: the result is
    ["ko"], not ["en"]. *)
Theorem detect_language_examples :
  detect_language (lit "Hello world") = Some en /\
  detect_language (lit "안녕하세요") = Some ko /\
  detect_language [] = Some ko /\
  detect_language [] <> Some en.
Proof.
  repeat split; try (vm_compute; reflexivity).
  vm_compute. discriminate.
Qed.

(* ================================================================== *)
(** * Facts about binary64 rounding *)
(* ================================================================== *)

Local Open Scope Q_scope.

Section Pow2.

Lemma pow2_pos (e : Z) : 0 < pow2 e.
Proof. apply Qpower_0_lt. reflexivity. Qed.

Lemma pow2_add (a b : Z) : pow2 (a + b) == pow2 a * pow2 b.
Proof. apply Qpower_plus. discriminate. Qed.

Lemma pow2_Z (k : Z) : (0 <= k)%Z -> pow2 k == inject_Z (2 ^ k).
Proof. intros H. unfold pow2. now rewrite Zpower_Qpower. Qed.

Lemma pow2_le (a b : Z) : (a <= b)%Z -> pow2 a <= pow2 b.
Proof. intros H. apply Qpower_le_compat_l; [exact H | discriminate]. Qed.

Lemma pow2_lt (a b : Z) : (a < b)%Z -> pow2 a < pow2 b.
Proof. intros H. apply Qpower_lt_compat_l; [exact H | reflexivity]. Qed.

Lemma pow2_succ (a : Z) : pow2 (a + 1) == 2 * pow2 a.
Proof. rewrite pow2_add. unfold pow2 at 2. simpl. ring. Qed.

Lemma pow2_cancel (a : Z) : pow2 a * pow2 (- a) == 1.
Proof. rewrite <- pow2_add, Z.add_opp_diag_r. reflexivity. Qed.

End Pow2.

Section Ilog2.

Lemma Zlog2_bounds (n : Z) :
  (0 < n)%Z ->
  pow2 (Z.log2 n) <= inject_Z n /\ inject_Z n < 2 * pow2 (Z.log2 n).
Proof.
  intros H. destruct (Z.log2_spec n H) as [H1 H2].
  pose proof (Z.log2_nonneg n) as H0.
  rewrite <- pow2_succ, !pow2_Z by lia.
  rewrite <- Zle_Qle, <- Zlt_Qlt. unfold Z.succ in H2. tauto.
Qed.

Lemma ilog2_spec (q : Q) :
  0 < q -> pow2 (ilog2 q) <= q /\ q < pow2 (ilog2 q + 1).
Proof.
  intros Hq. destruct q as [n d].
  assert (Hn : (0 < n)%Z).
  { unfold Qlt in Hq. simpl in Hq. lia. }
  destruct (Zlog2_bounds n Hn) as [Na Nb].
  destruct (Zlog2_bounds (Zpos d) eq_refl) as [Da Db].
  unfold ilog2. cbn [Qnum Qden].
  set (a := Z.log2 n) in *. set (b := Z.log2 (Zpos d)) in *.
  assert (HN : (n # d) * inject_Z (Zpos d) == inject_Z n).
  { unfold Qeq, Qmult, inject_Z. simpl. lia. }
  assert (HD : 0 < inject_Z (Zpos d)) by reflexivity.
  pose proof (pow2_pos b) as HB.
  destruct (Qle_bool (pow2 (a - b)) (n # d)) eqn:E.
  - apply Qle_bool_iff in E. split; [exact E | ].
    rewrite pow2_succ.
    pose proof (pow2_pos (a - b)) as HE.
    assert (HA : pow2 (a - b) * pow2 b == pow2 a).
    { rewrite <- pow2_add. now replace (a - b + b)%Z with a by lia. }
    apply Qnot_le_lt. intros Hc.
    assert (H1 : pow2 (a - b) * pow2 b
                 <= pow2 (a - b) * inject_Z (Zpos d)).
    { apply Qmult_le_l; assumption. }
    assert (H2 : 2 * pow2 (a - b) * inject_Z (Zpos d)
                 <= (n # d) * inject_Z (Zpos d)).
    { apply Qmult_le_r; assumption. }
    lra.
  - assert (E' : n # d < pow2 (a - b)).
    { apply Qnot_le_lt. intros Hc. apply Qle_bool_iff in Hc. congruence. }
    replace (a - b - 1 + 1)%Z with (a - b)%Z by lia.
    split; [ | exact E' ].
    pose proof (pow2_pos (a - b - 1)) as HE.
    assert (HA : 2 * pow2 (a - b - 1) * pow2 b == pow2 a).
    { rewrite <- pow2_succ, <- pow2_add.
      now replace (a - b - 1 + 1 + b)%Z with a by lia. }
    apply Qnot_lt_le. intros Hc.
    assert (H1 : (n # d) * inject_Z (Zpos d)
                 < pow2 (a - b - 1) * inject_Z (Zpos d)).
    { apply Qmult_lt_r; assumption. }
    assert (H2 : pow2 (a - b - 1) * inject_Z (Zpos d)
                 < pow2 (a - b - 1) * (2 * pow2 b)).
    { apply Qmult_lt_l; assumption. }
    lra.
Qed.

Lemma ilog2_unique (q : Q) (a : Z) :
  pow2 a <= q -> q < pow2 (a + 1) -> ilog2 q = a.
Proof.
  intros H1 H2.
  assert (Hq : 0 < q) by (pose proof (pow2_pos a); lra).
  destruct (ilog2_spec q Hq) as [L1 L2].
  destruct (Z.lt_trichotomy (ilog2 q) a) as [H | [H | H]];
    [ | exact H | ]; exfalso.
  - assert (pow2 (ilog2 q + 1) <= pow2 a) by (apply pow2_le; lia). lra.
  - assert (pow2 (a + 1) <= pow2 (ilog2 q)) by (apply pow2_le; lia). lra.
Qed.

Lemma ilog2_comp (q q' : Q) : 0 < q -> q == q' -> ilog2 q = ilog2 q'.
Proof.
  intros Hq E. destruct (ilog2_spec q Hq) as [L1 L2].
  symmetry. apply ilog2_unique; rewrite <- E; assumption.
Qed.

End Ilog2.

(** The two bounds that define [Qfloor x], as facts [F1] and [F2]. *)
Ltac floor_bounds x F1 F2 :=
  pose proof (Qfloor_le x) as F1;
  pose proof (Qlt_floor x) as F2;
  rewrite inject_Z_plus in F2;
  change (inject_Z 1) with 1 in F2.

Section Rounding.

Lemma Qfloor_unique (x : Q) (f : Z) :
  inject_Z f <= x -> x < inject_Z f + 1 -> Qfloor x = f.
Proof.
  intros H1 H2. floor_bounds x F1 F2.
  assert (A : inject_Z (Qfloor x) < inject_Z (f + 1)).
  { rewrite inject_Z_plus. change (inject_Z 1) with 1. lra. }
  assert (B : inject_Z f < inject_Z (Qfloor x + 1)).
  { rewrite inject_Z_plus. change (inject_Z 1) with 1. lra. }
  rewrite <- Zlt_Qlt in A, B. lia.
Qed.

Lemma round_half_even_bounds (x : Q) :
  inject_Z (round_half_even x) - (1 # 2) <= x /\
  x <= inject_Z (round_half_even x) + (1 # 2).
Proof.
  unfold round_half_even. floor_bounds x F1 F2.
  destruct (Qcompare_spec (x - inject_Z (Qfloor x)) (1 # 2)) as [E | E | E].
  - destruct (Z.even (Qfloor x)); rewrite ?inject_Z_plus;
      change (inject_Z 1) with 1; lra.
  - lra.
  - rewrite inject_Z_plus. change (inject_Z 1) with 1. lra.
Qed.

Lemma round_half_even_floor (x : Q) (f : Z) :
  inject_Z f <= x -> x < inject_Z f + (1 # 2) -> round_half_even x = f.
Proof.
  intros H1 H2. unfold round_half_even.
  assert (F : Qfloor x = f) by (apply Qfloor_unique; lra).
  rewrite F.
  destruct (Qcompare_spec (x - inject_Z f) (1 # 2)) as [E | E | E];
    [lra | reflexivity | lra].
Qed.

Lemma round_half_even_comp (x y : Q) :
  x == y -> round_half_even x = round_half_even y.
Proof.
  intros E. unfold round_half_even. cbv zeta.
  assert (F : Qfloor x = Qfloor y) by (now apply Qfloor_comp).
  assert (C : Qcompare (x - inject_Z (Qfloor y)) (1 # 2)
              = Qcompare (y - inject_Z (Qfloor y)) (1 # 2)).
  { apply Qcompare_comp; [now rewrite E | reflexivity]. }
  now rewrite F, C.
Qed.

Lemma rnd_zero (q : Q) : q == 0 -> rnd q = 0.
Proof.
  intros H. unfold rnd. apply Qeq_bool_iff in H. now rewrite H.
Qed.

Lemma rnd_nonzero (q : Q) :
  ~ q == 0 ->
  rnd q = inject_Z (round_half_even
                      (q * pow2 (- (ilog2 (Qabs q) - 52))))
          * pow2 (ilog2 (Qabs q) - 52).
Proof.
  intros H. unfold rnd.
  destruct (Qeq_bool q 0) eqn:E; [ | reflexivity ].
  apply Qeq_bool_iff in E. contradiction.
Qed.

Lemma Qabs_nonzero (q : Q) : ~ q == 0 -> 0 < Qabs q.
Proof.
  intros H. apply Qabs_case; intros H'.
  - destruct (Qlt_le_dec 0 q) as [L | L]; [exact L | ].
    exfalso. apply H. lra.
  - destruct (Qlt_le_dec q 0) as [L | L]; [lra | ].
    exfalso. apply H. lra.
Qed.

(** Rounding depends on the value only, not on the fraction that
    represents it. *)
Lemma rnd_comp (q q' : Q) : q == q' -> rnd q == rnd q'.
Proof.
  intros E. destruct (Qeq_dec q 0) as [Z | NZ].
  - rewrite (rnd_zero q Z), (rnd_zero q'); [reflexivity | ].
    now rewrite <- E.
  - assert (NZ' : ~ q' == 0) by (now rewrite <- E).
    rewrite (rnd_nonzero q NZ), (rnd_nonzero q' NZ').
    assert (L : ilog2 (Qabs q) = ilog2 (Qabs q')).
    { apply ilog2_comp; [now apply Qabs_nonzero | now rewrite E]. }
    rewrite L.
    rewrite (round_half_even_comp
               (q * pow2 (- (ilog2 (Qabs q') - 52)))
               (q' * pow2 (- (ilog2 (Qabs q') - 52))));
      [reflexivity | now rewrite E].
Qed.

Lemma rnd_positive (q : Q) :
  0 < q ->
  rnd q = inject_Z (round_half_even (q * pow2 (- (ilog2 q - 52))))
          * pow2 (ilog2 q - 52).
Proof.
  intros H. rewrite rnd_nonzero by lra.
  assert (L : ilog2 (Qabs q) = ilog2 q).
  { apply ilog2_comp; [apply Qabs_nonzero; lra | apply Qabs_pos; lra]. }
  now rewrite L.
Qed.

(** Rounding goes down to [f * 2^e] from less than half a unit
    above it. *)
Lemma rnd_down (q : Q) (f : Z) :
  0 < q ->
  inject_Z f * pow2 (ilog2 q - 52) <= q ->
  q < (inject_Z f + (1 # 2)) * pow2 (ilog2 q - 52) ->
  rnd q == inject_Z f * pow2 (ilog2 q - 52).
Proof.
  intros Hq H1 H2. rewrite (rnd_positive q Hq).
  set (e := (ilog2 q - 52)%Z) in *.
  pose proof (pow2_pos e) as Pe. pose proof (pow2_pos (- e)) as Pne.
  pose proof (pow2_cancel e) as C.
  rewrite (round_half_even_floor (q * pow2 (- e)) f); [reflexivity | | ].
  - assert (X : inject_Z f * pow2 e * pow2 (- e) <= q * pow2 (- e)).
    { apply Qmult_le_r; assumption. }
    assert (Y : inject_Z f * pow2 e * pow2 (- e) == inject_Z f).
    { rewrite <- Qmult_assoc, C. ring. }
    lra.
  - assert (X : q * pow2 (- e)
                < (inject_Z f + (1 # 2)) * pow2 e * pow2 (- e)).
    { apply Qmult_lt_r; assumption. }
    assert (Y : (inject_Z f + (1 # 2)) * pow2 e * pow2 (- e)
                == inject_Z f + (1 # 2)).
    { rewrite <- Qmult_assoc, C. ring. }
    lra.
Qed.

Lemma Zlog2_succ_bound (z : Z) :
  (0 < z)%Z -> inject_Z z + 1 <= 2 * pow2 (Z.log2 z).
Proof.
  intros H. destruct (Z.log2_spec z H) as [_ H2].
  pose proof (Z.log2_nonneg z) as H0.
  rewrite <- pow2_succ, pow2_Z by lia.
  change 1 with (inject_Z 1). rewrite <- inject_Z_plus, <- Zle_Qle.
  unfold Z.succ in H2. lia.
Qed.

(** An integer below [2^53] is a binary64 number, and what lies less
    than half a unit in the last place above it rounds to it. *)
Lemma rnd_near (z : Z) (q : Q) :
  (0 < z < 2 ^ 53)%Z ->
  inject_Z z <= q -> q < inject_Z z + pow2 (Z.log2 z - 53) ->
  rnd q == inject_Z z.
Proof.
  intros Hz Q1 Q2.
  destruct (Zlog2_bounds z) as [B1 B2]; [lia | ].
  assert (B3 : inject_Z z + 1 <= 2 * pow2 (Z.log2 z))
    by (apply Zlog2_succ_bound; lia).
  assert (Hl : (0 <= Z.log2 z <= 52)%Z).
  { split; [apply Z.log2_nonneg | ].
    assert (Z.log2 z < 53)%Z; [ | lia ].
    apply Z.log2_lt_pow2; lia. }
  assert (Hq : 0 < q).
  { assert (0 < inject_Z z); [ | lra ].
    change 0 with (inject_Z 0). rewrite <- Zlt_Qlt. lia. }
  assert (U : pow2 (Z.log2 z - 53) < 1).
  { change 1 with (pow2 0). apply pow2_lt. lia. }
  assert (L : ilog2 q = Z.log2 z).
  { apply ilog2_unique; [lra | ]. rewrite pow2_succ. lra. }
  set (f := (z * 2 ^ (52 - Z.log2 z))%Z).
  assert (F : inject_Z f * pow2 (ilog2 q - 52) == inject_Z z).
  { unfold f. rewrite L, inject_Z_mult, <- pow2_Z by lia.
    rewrite <- Qmult_assoc, <- pow2_add.
    replace (52 - Z.log2 z + (Z.log2 z - 52))%Z with 0%Z by lia.
    unfold pow2. simpl. ring. }
  assert (H : (1 # 2) * pow2 (ilog2 q - 52) == pow2 (Z.log2 z - 53)).
  { rewrite L. change (1 # 2) with (pow2 (-1)). rewrite <- pow2_add.
    now replace (-1 + (Z.log2 z - 52))%Z with (Z.log2 z - 53)%Z by lia. }
  rewrite <- F. apply rnd_down; [exact Hq | lra | ].
  assert (D : (inject_Z f + (1 # 2)) * pow2 (ilog2 q - 52)
              == inject_Z f * pow2 (ilog2 q - 52)
                 + (1 # 2) * pow2 (ilog2 q - 52)) by ring.
  lra.
Qed.

(** The integers below [2^53] are binary64 numbers. *)
Lemma rnd_int (z : Z) (q : Q) :
  (0 <= z < 2 ^ 53)%Z -> q == inject_Z z -> rnd q == inject_Z z.
Proof.
  intros Hz E. destruct (Z.eq_dec z 0) as [-> | NZ].
  - now rewrite (rnd_zero q E).
  - apply rnd_near; [lia | lra | ].
    pose proof (pow2_pos (Z.log2 z - 53)). lra.
Qed.

(** The relative error of rounding is at most [2^-53]. *)
Lemma rnd_error (q : Q) :
  0 < q ->
  q * (1 - pow2 (-53)) <= rnd q /\ rnd q <= q * (1 + pow2 (-53)).
Proof.
  intros Hq. rewrite (rnd_positive q Hq).
  destruct (ilog2_spec q Hq) as [L1 L2].
  set (e := (ilog2 q - 52)%Z).
  pose proof (pow2_pos e) as Pe.
  pose proof (pow2_cancel e) as C.
  destruct (round_half_even_bounds (q * pow2 (- e))) as [R1 R2].
  set (r := inject_Z (round_half_even (q * pow2 (- e)))) in *.
  assert (X1 : (r - (1 # 2)) * pow2 e <= q * pow2 (- e) * pow2 e).
  { apply Qmult_le_r; assumption. }
  assert (X2 : q * pow2 (- e) * pow2 e <= (r + (1 # 2)) * pow2 e).
  { apply Qmult_le_r; assumption. }
  assert (Y : q * pow2 (- e) * pow2 e == q).
  { rewrite <- Qmult_assoc, (Qmult_comm (pow2 (- e))), C. ring. }
  assert (S : pow2 (ilog2 q) == pow2 e * pow2 52).
  { rewrite <- pow2_add. unfold e.
    now replace (ilog2 q - 52 + 52)%Z with (ilog2 q) by lia. }
  assert (T : pow2 e * pow2 52 * pow2 (-53) == pow2 e * (1 # 2)).
  { rewrite <- Qmult_assoc. unfold pow2 at 2 3. simpl.
    apply Qmult_comp; reflexivity. }
  assert (U : pow2 e * pow2 52 * pow2 (-53) <= q * pow2 (-53)).
  { apply Qmult_le_r; [apply pow2_pos | lra]. }
  split; lra.
Qed.

End Rounding.

Section FivePercent.

Lemma lit_0_05_value :
  lit_0_05 == 3602879701896397 # 72057594037927936.
Proof. reflexivity. Qed.

Lemma lit_0_05_near_twentieth :
  lit_0_05 == (1 + pow2 (-54)) / 20.
Proof. reflexivity. Qed.

Lemma Qlt_bool_iff (a b : Q) : Qlt_bool a b = true <-> a < b.
Proof.
  unfold Qlt_bool. rewrite negb_true_iff. split.
  - intros H. apply Qnot_le_lt. intros Hc.
    apply Qle_bool_iff in Hc. congruence.
  - intros H. destruct (Qle_bool b a) eqn:E; [ | reflexivity ].
    apply Qle_bool_iff in E. lra.
Qed.

Lemma Qlt_bool_false (a b : Q) : Qlt_bool a b = false <-> b <= a.
Proof.
  unfold Qlt_bool. rewrite negb_false_iff. apply Qle_bool_iff.
Qed.

(** For a text of fewer than [2^52] characters, the floating-point
    test [c < len * 0.05] decides [20 * c < len]. *)
Lemma five_percent_exact (c n : Z) :
  (0 <= c <= n)%Z -> (n < 2 ^ 52)%Z ->
  int_lt_float c (fmul (of_int n) lit_0_05) = (20 * c <? n)%Z.
Proof.
  intros Hc Hn. unfold int_lt_float, fmul, of_int.
  assert (N : rnd (inject_Z n) == inject_Z n).
  { apply rnd_int; [lia | reflexivity]. }
  assert (R : rnd (rnd (inject_Z n) * lit_0_05)
              == rnd (inject_Z n * lit_0_05)).
  { apply rnd_comp. now rewrite N. }
  set (x := rnd (rnd (inject_Z n) * lit_0_05)) in *.
  set (q := inject_Z n * lit_0_05) in *.
  assert (Q : q == inject_Z n * (3602879701896397 # 72057594037927936)).
  { unfold q. now rewrite lit_0_05_value. }
  assert (Bn : inject_Z n < 4503599627370496).
  { change 4503599627370496 with (inject_Z (2 ^ 52)).
    now rewrite <- Zlt_Qlt. }
  assert (Bc : 0 <= inject_Z c).
  { change 0 with (inject_Z 0). rewrite <- Zle_Qle. lia. }
  destruct (Z.ltb_spec (20 * c) n) as [Lt | Ge].
  - apply Qlt_bool_iff.
    assert (Hn1 : 20 * inject_Z c + 1 <= inject_Z n).
    { change 20 with (inject_Z 20). change 1 with (inject_Z 1).
      rewrite <- inject_Z_mult, <- inject_Z_plus, <- Zle_Qle. lia. }
    assert (Hq : 0 < q) by lra.
    destruct (rnd_error q Hq) as [E1 _].
    change (pow2 (-53)) with (1 # 9007199254740992) in E1.
    lra.
  - apply Qlt_bool_false.
    destruct (Z.eq_dec (20 * c) n) as [Eq | Ne].
    + destruct (Z.eq_dec c 0) as [C0 | C0].
      * assert (Z0 : q == 0).
        { rewrite Q. replace n with 0%Z by lia. reflexivity. }
        rewrite R, (rnd_zero q Z0). subst c. lra.
      * assert (Hn1 : inject_Z n == 20 * inject_Z c).
        { change 20 with (inject_Z 20).
          rewrite <- inject_Z_mult. now rewrite <- Eq. }
        assert (Hpos : (0 < c)%Z) by lia.
        destruct (Zlog2_bounds c Hpos) as [B1 B2].
        assert (S : pow2 (Z.log2 c - 53)
                    == pow2 (Z.log2 c) * (1 # 9007199254740992)).
        { replace (Z.log2 c - 53)%Z with (Z.log2 c + -53)%Z by lia.
          now rewrite pow2_add. }
        rewrite R, (rnd_near c q); [lra | lia | lra | lra].
    + assert (Hn1 : inject_Z n + 1 <= 20 * inject_Z c).
      { change 20 with (inject_Z 20). change 1 with (inject_Z 1).
        rewrite <- inject_Z_mult, <- inject_Z_plus, <- Zle_Qle. lia. }
      destruct (Z.eq_dec n 0) as [N0 | N0].
      * assert (Z0 : q == 0).
        { rewrite Q. subst n. reflexivity. }
        rewrite R, (rnd_zero q Z0). lra.
      * assert (Hq : 0 < q).
        { assert (1 <= inject_Z n); [ | lra ].
          change 1 with (inject_Z 1). rewrite <- Zle_Qle. lia. }
        destruct (rnd_error q Hq) as [_ E2].
        change (pow2 (-53)) with (1 # 9007199254740992) in E2.
        lra.
Qed.

End FivePercent.

Section FloorDivision.

Lemma inject_Z_nonneg (z : Z) : (0 <= z)%Z -> 0 <= inject_Z z.
Proof. intros H. change 0 with (inject_Z 0). now rewrite <- Zle_Qle. Qed.

Lemma inject_Z_pos (z : Z) : (0 < z)%Z -> 0 < inject_Z z.
Proof. intros H. change 0 with (inject_Z 0). now rewrite <- Zlt_Qlt. Qed.

Lemma Qfloor_sub_int (q : Q) (z : Z) :
  Qfloor (q - inject_Z z) = (Qfloor q - z)%Z.
Proof.
  floor_bounds q F1 F2.
  apply Qfloor_unique; unfold Z.sub;
    rewrite inject_Z_plus, inject_Z_opp; lra.
Qed.

Lemma Qfloor_nonneg (q : Q) : 0 <= q -> (0 <= Qfloor q)%Z.
Proof.
  intros H. change 0%Z with (Qfloor 0). now apply Qfloor_resp_le.
Qed.

Lemma Qfloor_div_int (q : Q) (w : Z) :
  (0 < w)%Z -> Qfloor (q / inject_Z w) = (Qfloor q / w)%Z.
Proof.
  intros Hw. floor_bounds q F1 F2.
  pose proof (inject_Z_pos w Hw) as W.
  set (k := (Qfloor q / w)%Z).
  assert (K1 : (w * k <= Qfloor q)%Z) by (apply Z.mul_div_le; lia).
  assert (K2 : (Qfloor q + 1 <= w * k + w)%Z).
  { pose proof (Z.mod_pos_bound (Qfloor q) w Hw).
    pose proof (Z.div_mod (Qfloor q) w). unfold k. lia. }
  rewrite Zle_Qle in K1, K2.
  rewrite !inject_Z_plus, ?inject_Z_mult in K2.
  rewrite inject_Z_mult in K1. change (inject_Z 1) with 1 in K2.
  assert (D : q / inject_Z w * inject_Z w == q).
  { field. lra. }
  apply Qfloor_unique.
  - apply Qnot_lt_le. intros Hc.
    assert (q / inject_Z w * inject_Z w < inject_Z k * inject_Z w)
      by (apply Qmult_lt_r; assumption).
    lra.
  - apply Qnot_le_lt. intros Hc.
    assert ((inject_Z k + 1) * inject_Z w
            <= q / inject_Z w * inject_Z w)
      by (apply Qmult_le_r; assumption).
    lra.
Qed.

Lemma trunc_nonneg (q : Q) : 0 <= q -> trunc q = Qfloor q.
Proof.
  intros H. unfold trunc.
  now rewrite (proj2 (Qlt_bool_false q 0) H).
Qed.

Lemma trunc_int (q : Q) (z : Z) :
  (0 <= z)%Z -> q == inject_Z z -> trunc q = z.
Proof.
  intros Hz E. pose proof (inject_Z_nonneg z Hz).
  rewrite trunc_nonneg by lra.
  rewrite (Qfloor_comp q (inject_Z z) E). apply Qfloor_Z.
Qed.

Variable s : Q.
Variable w : Z.
Hypothesis s_nonneg : 0 <= s.
Hypothesis w_pos : (0 < w)%Z.

Let k : Z := (Qfloor s / w)%Z.

Lemma quotient_bounds : (0 <= k)%Z /\ (0 <= w * k <= Qfloor s)%Z.
Proof.
  pose proof (Qfloor_nonneg s s_nonneg) as F.
  assert (0 <= k)%Z by (apply Z.div_pos; lia).
  split; [assumption | ].
  split; [lia | apply Z.mul_div_le; lia].
Qed.

(** C's [fmod] of a non-negative number by a positive integer. *)
Lemma fmod_nonneg :
  fmod s (inject_Z w) == s - inject_Z (w * k) /\
  0 <= fmod s (inject_Z w) /\ fmod s (inject_Z w) < inject_Z w.
Proof.
  pose proof (inject_Z_pos w w_pos) as W.
  assert (Q0 : 0 <= s / inject_Z w).
  { apply Qle_shift_div_l; [exact W | lra]. }
  assert (E : fmod s (inject_Z w) == s - inject_Z (w * k)).
  { unfold fmod. rewrite (trunc_nonneg _ Q0), Qfloor_div_int by exact w_pos.
    fold k. rewrite inject_Z_mult. reflexivity. }
  split; [exact E | ]. rewrite E.
  floor_bounds s F1 F2.
  destruct quotient_bounds as [_ [_ K1]].
  assert (K2 : (Qfloor s + 1 <= w * k + w)%Z).
  { pose proof (Z.mod_pos_bound (Qfloor s) w w_pos).
    pose proof (Z.div_mod (Qfloor s) w). unfold k. lia. }
  rewrite Zle_Qle in K1, K2.
  rewrite !inject_Z_plus in K2. change (inject_Z 1) with 1 in K2.
  split; lra.
Qed.

(** [s % w] is exact. *)
Lemma float_rem_exact :
  float_rem s (inject_Z w) == s - inject_Z (w * k).
Proof.
  destruct fmod_nonneg as [E [M1 M2]]. unfold float_rem.
  pose proof (inject_Z_pos w w_pos) as W.
  rewrite (proj2 (Qlt_bool_false (inject_Z w) 0)) by lra.
  rewrite (proj2 (Qlt_bool_false (fmod s (inject_Z w)) 0)) by exact M1.
  simpl. destruct (Qeq_bool (fmod s (inject_Z w)) 0) eqn:Z; simpl.
  - apply Qeq_bool_iff in Z. rewrite <- E, Z. reflexivity.
  - exact E.
Qed.

(** [s // w] is exact below [2^53]. *)
Lemma float_floor_div_exact :
  s < inject_Z (2 ^ 53) ->
  float_floor_div s (inject_Z w) == inject_Z k.
Proof.
  intros Hs. destruct fmod_nonneg as [E [M1 M2]].
  destruct quotient_bounds as [K0 [K1 K2]].
  pose proof (inject_Z_pos w w_pos) as W.
  assert (F53 : (Qfloor s < 2 ^ 53)%Z).
  { pose proof (Qfloor_le s). rewrite Zlt_Qlt. lra. }
  assert (Kw : (k <= w * k)%Z) by nia.
  unfold float_floor_div.
  rewrite (proj2 (Qlt_bool_false (inject_Z w) 0)) by lra.
  rewrite (proj2 (Qlt_bool_false (fmod s (inject_Z w)) 0)) by exact M1.
  simpl (negb (Bool.eqb false false)). rewrite andb_false_r.
  assert (X : fsub s (fmod s (inject_Z w)) == inject_Z (w * k)).
  { unfold fsub. apply rnd_int; [lia | ]. rewrite E. ring. }
  assert (D : fdiv (fsub s (fmod s (inject_Z w))) (inject_Z w)
              == inject_Z k).
  { unfold fdiv. apply rnd_int; [lia | ].
    rewrite X, inject_Z_mult. field. lra. }
  set (div := fdiv (fsub s (fmod s (inject_Z w))) (inject_Z w)) in *.
  destruct (Qeq_bool div 0) eqn:Z; simpl.
  - apply Qeq_bool_iff in Z. now rewrite <- D, Z.
  - assert (Fl : Qfloor div = k).
    { rewrite (Qfloor_comp div (inject_Z k) D). apply Qfloor_Z. }
    rewrite Fl. unfold fsub.
    rewrite (rnd_zero (div - inject_Z k)) by (rewrite D; ring).
    reflexivity.
Qed.

End FloorDivision.

Section TimeFields.

Variable s : Q.
Hypothesis s_nonneg : 0 <= s.
Hypothesis s_small : s < inject_Z (2 ^ 53).

(** Below [2^53] the three fields are the exact quotients and
    remainders of the integer part. *)
Lemma time_fields_exact :
  time_fields s =
    ((Qfloor s / 3600)%Z,
     ((Qfloor s mod 3600) / 60)%Z,
     (Qfloor s mod 60)%Z).
Proof.
  pose proof (Qfloor_nonneg s s_nonneg) as F0.
  floor_bounds s F1 F2.
  unfold time_fields.
  change 3600%Q with (inject_Z 3600). change 60%Q with (inject_Z 60).
  pose proof (float_rem_exact s 3600 s_nonneg eq_refl) as R1.
  pose proof (float_rem_exact s 60 s_nonneg eq_refl) as R2.
  pose proof (Z.div_mod (Qfloor s) 3600 ltac:(lia)) as D1.
  pose proof (Z.mod_pos_bound (Qfloor s) 3600 eq_refl) as B1.
  pose proof (Z.div_mod (Qfloor s) 60 ltac:(lia)) as D2.
  pose proof (Z.mod_pos_bound (Qfloor s) 60 eq_refl) as B2.
  set (r := float_rem s (inject_Z 3600)) in *.
  assert (Fr : Qfloor r = (Qfloor s mod 3600)%Z).
  { rewrite (Qfloor_comp _ _ R1), Qfloor_sub_int. lia. }
  assert (r0 : 0 <= r).
  { rewrite R1. assert (H : (3600 * (Qfloor s / 3600) <= Qfloor s)%Z) by lia.
    rewrite Zle_Qle in H. lra. }
  assert (r1 : r < inject_Z (2 ^ 53)).
  { rewrite R1.
    assert (H : (Qfloor s + 1 <= 3600 * (Qfloor s / 3600) + 3600)%Z) by lia.
    rewrite Zle_Qle, !inject_Z_plus in H.
    change (inject_Z 1) with 1 in H.
    change (inject_Z 3600) with 3600 in H.
    change (inject_Z (2 ^ 53)) with 9007199254740992. lra. }
  f_equal; [f_equal | ].
  - apply trunc_int; [apply Z.div_pos; lia | ].
    now apply float_floor_div_exact.
  - apply trunc_int; [apply Z.div_pos; lia | ].
    rewrite <- Fr. now apply float_floor_div_exact.
  - rewrite trunc_nonneg.
    + rewrite (Qfloor_comp _ _ R2), Qfloor_sub_int. lia.
    + rewrite R2. assert (H : (60 * (Qfloor s / 60) <= Qfloor s)%Z) by lia.
      rewrite Zle_Qle in H. lra.
Qed.

End TimeFields.

Section Decimal.

Lemma uint_chars_digits (u : Decimal.uint) :
  Forall is_digit (uint_chars u).
Proof.
  induction u; simpl; constructor; try assumption; unfold is_digit; lia.
Qed.

Lemma chars_uint_chars (u : Decimal.uint) :
  chars_uint (uint_chars u) = Some u.
Proof. induction u; simpl; rewrite ?IHu; reflexivity. Qed.

Lemma decimal_nonempty (n : N) : decimal n <> [].
Proof.
  unfold decimal. intros H.
  pose proof (DecimalN.Unsigned.of_to n) as E.
  destruct (N.to_uint n) eqn:U; try discriminate H.
  simpl in E. subst n. discriminate U.
Qed.

Lemma chars_uint_zeros (k : nat) (u : Decimal.uint) :
  exists u', chars_uint (repeat 48%N k ++ uint_chars u) = Some u' /\
             N.of_uint u' = N.of_uint u.
Proof.
  induction k as [|k [u' [H1 H2]]]; simpl.
  - exists u. now rewrite chars_uint_chars.
  - rewrite H1. exists (Decimal.D0 u'). split; [reflexivity | exact H2].
Qed.

Lemma format_02d_nonneg (z : Z) :
  (0 <= z)%Z ->
  format_02d z
  = repeat 48%N (2 - length (decimal (Z.to_N z))) ++ decimal (Z.to_N z).
Proof.
  intros H. unfold format_02d.
  destruct (Z.ltb_spec z 0); [lia | reflexivity].
Qed.

Lemma read_field_padded (ds : str) :
  ds <> [] ->
  Spec.read_field (repeat 48%N (2 - length ds) ++ ds)
  = option_map N.of_uint
      (chars_uint (repeat 48%N (2 - length ds) ++ ds)).
Proof.
  intros H. destruct ds as [|a [|b r]]; [congruence | | ]; reflexivity.
Qed.

(** A non-negative field reads back as its value. *)
Lemma read_field_format (z : Z) :
  (0 <= z)%Z -> Spec.read_field (format_02d z) = Some (Z.to_N z).
Proof.
  intros H. rewrite (format_02d_nonneg z H).
  rewrite read_field_padded by apply decimal_nonempty.
  destruct (chars_uint_zeros (2 - length (decimal (Z.to_N z)))
              (N.to_uint (Z.to_N z))) as [u' [H1 H2]].
  unfold decimal at 2. rewrite H1. simpl.
  now rewrite H2, DecimalN.Unsigned.of_to.
Qed.

Lemma format_02d_digits (z : Z) :
  (0 <= z)%Z -> Forall is_digit (format_02d z).
Proof.
  intros H. rewrite (format_02d_nonneg z H). apply Forall_app. split.
  - apply Forall_forall. intros c Hc. apply repeat_spec in Hc.
    subst c. unfold is_digit. lia.
  - apply uint_chars_digits.
Qed.

Lemma split_colon_digits (a : str) :
  Forall is_digit a -> split [colon] a = [a].
Proof.
  unfold split. induction 1 as [|c a Hc _ IH]; [reflexivity | ].
  cbn [split_from prefixb].
  destruct (N.eqb_spec colon c) as [<- | _].
  - unfold is_digit, colon in Hc. lia.
  - simpl. now rewrite IH.
Qed.

Lemma split_colon_cons (a rest : str) :
  Forall is_digit a ->
  split [colon] (a ++ colon :: rest) = a :: split [colon] rest.
Proof.
  unfold split. induction 1 as [|c a Hc _ IH].
  - cbn [app split_from prefixb]. rewrite N.eqb_refl. reflexivity.
  - cbn [app split_from prefixb].
    destruct (N.eqb_spec colon c) as [<- | _].
    + unfold is_digit, colon in Hc. lia.
    + simpl. now rewrite IH.
Qed.

(** The string of three non-negative fields reads back as them. *)
Lemma read_hms_format (h m s : Z) :
  (0 <= h)%Z -> (0 <= m)%Z -> (0 <= s)%Z ->
  Spec.read_hms
    (format_02d h ++ [colon] ++ format_02d m ++ [colon] ++ format_02d s)
  = Some (Z.to_N h, Z.to_N m, Z.to_N s).
Proof.
  intros Hh Hm Hs. unfold Spec.read_hms. simpl app.
  rewrite split_colon_cons by now apply format_02d_digits.
  rewrite split_colon_cons by now apply format_02d_digits.
  rewrite split_colon_digits by now apply format_02d_digits.
  now rewrite !read_field_format.
Qed.

End Decimal.

(* ================================================================== *)
(** * detect_language: the 5% override *)
(* ================================================================== *)

Section Counts.

Lemma py_sum_ones (A : Type) (l : list A) (a : Z) :
  fold_left Z.add (map (fun _ => 1%Z) l) a
  = (a + Z.of_nat (length l))%Z.
Proof.
  revert a; induction l as [|x l IH]; intros a; simpl length.
  - simpl. lia.
  - cbn [map fold_left]. rewrite IH. lia.
Qed.

Lemma count_filter (chars : char -> bool) (text : str) :
  count chars text = Z.of_nat (length (filter chars text)).
Proof. unfold count, py_sum. now rewrite py_sum_ones. Qed.

Lemma count_bounds (chars : char -> bool) (text : str) :
  (0 <= count chars text <= Z.of_nat (length text))%Z.
Proof.
  rewrite count_filter. pose proof (filter_length_le chars text). lia.
Qed.

Lemma count_of_bounds (l : Spec.lang) (text : str) :
  (0 <= Spec.count_of l text <= Z.of_nat (length text))%Z.
Proof. destruct l; apply count_bounds. Qed.

Lemma english_chars_bound (c : char) :
  english_chars c = true -> (65 <= c <= 122)%N.
Proof.
  unfold english_chars. rewrite existsb_exists. intros [x [Hin Hx]].
  apply N.eqb_eq in Hx. subst x.
  assert (T : forallb (fun x => (65 <=? x) && (x <=? 122))%N
                (lit "abcdefghijklmnopqrstuvwxyzABCDEFGHIJKLMNOPQRSTUVWXYZ")
              = true) by (vm_compute; reflexivity).
  rewrite forallb_forall in T. specialize (T c Hin).
  apply andb_true_iff in T as [T1 T2].
  apply N.leb_le in T1, T2. lia.
Qed.

End Counts.

Example lit_0_05_is_float : is_float lit_0_05 = true.
Proof. vm_compute. reflexivity. Qed.

Section NamedClasses.

(** On the counts of the code: [detect_language] returns the code of
    the language whose count is maximal, the first in the order ko, ja,
    zh, en among equals, unless that count is less than 5% of the
    length of the text, in which case it returns ["en"].  The bound on
    the length makes the binary64 product [len(text) * 0.05] decide the
    exact 5%. *)
Lemma detect_language_winner (text : str) :
  (Z.of_nat (length text) < 2 ^ 52)%Z ->
  exists w : Spec.lang,
    Spec.winner text w /\
    detect_language text
    = Some (Spec.code
              (if Spec.below_5_percent (Spec.count_of w text) text
               then Spec.En else w)).
Proof.
  intros Hlen. destruct (detect_language_cases text) as [w [Hw ->]].
  exists w. split; [exact Hw | ].
  rewrite (five_percent_exact _ _ (count_of_bounds w text) Hlen).
  unfold Spec.below_5_percent.
  now destruct (20 * Spec.count_of w text <? Z.of_nat (length text))%Z.
Qed.

(** The first maximum is maximal, and first among the maximal ones. *)
Lemma first_max_spec (cnt : Spec.lang -> Z) :
  (forall l, (cnt l <= cnt (Spec.first_max cnt))%Z) /\
  (forall l, cnt l = cnt (Spec.first_max cnt) ->
             (Spec.rank (Spec.first_max cnt) <= Spec.rank l)%nat).
Proof.
  unfold Spec.first_max. cbn [fold_left].
  destruct (Z.ltb_spec (cnt Spec.Ko) (cnt Spec.Ja)); cbv iota;
    match goal with |- context [(cnt ?a <? cnt Spec.Zh)%Z] =>
      destruct (Z.ltb_spec (cnt a) (cnt Spec.Zh)) end; cbv iota;
    match goal with |- context [(cnt ?a <? cnt Spec.En)%Z] =>
      destruct (Z.ltb_spec (cnt a) (cnt Spec.En)) end; cbv iota;
    split; intros []; cbn [Spec.rank]; lia.
Qed.

Lemma winner_first_max (text : str) (w : Spec.lang) :
  Spec.winner text w ->
  w = Spec.first_max (fun l => Spec.count_of l text).
Proof.
  intros [W1 W2].
  destruct (first_max_spec (fun l => Spec.count_of l text)) as [F1 F2].
  set (m := Spec.first_max (fun l => Spec.count_of l text)) in *.
  cbv beta in F1, F2.
  assert (E : Spec.count_of m text = Spec.count_of w text)
    by (pose proof (W1 m); pose proof (F1 w); lia).
  pose proof (W2 m E) as R1. pose proof (F2 w (eq_sym E)) as R2.
  destruct w, m; cbn [Spec.rank] in R1, R2; try reflexivity; lia.
Qed.

(** The ASCII Latin letters are the characters of the set of the
    code. *)
Lemma english_chars_letters (c : char) :
  english_chars c = Spec.named_class Spec.En c.
Proof.
  destruct (N.leb_spec c 122) as [H | H].
  - assert (T : forallb
                  (fun n => Bool.eqb (english_chars (N.of_nat n))
                              (Spec.named_class Spec.En (N.of_nat n)))
                  (seq 0 123) = true) by (vm_compute; reflexivity).
    rewrite forallb_forall in T. specialize (T (N.to_nat c)).
    rewrite N2Nat.id in T. apply eqb_prop, T, in_seq. lia.
  - destruct (english_chars c) eqn:E.
    + apply english_chars_bound in E. lia.
    + symmetry. cbn [Spec.named_class].
      apply orb_false_iff. split; apply andb_false_iff; right;
        apply N.leb_gt; lia.
Qed.

(** Off the last code point of the Katakana block and of the block of
    the unified ideographs, the sets of the code are the named
    classes. *)
Lemma named_count_code (l : Spec.lang) (text : str) :
  ~ In 0x30FF%N text -> ~ In 0x9FFF%N text ->
  Spec.named_count l text = Spec.count_of l text.
Proof.
  intros Hj Hz. unfold Spec.named_count.
  assert (F : forall f g : char -> bool,
             (forall c, In c text -> f c = g c) ->
             Z.of_nat (length (filter f text)) = count g text).
  { intros f g H. rewrite count_filter. do 2 f_equal.
    now apply filter_ext_in. }
  assert (N : forall c (b : N), In c text -> ~ In b text ->
                                (c <=? b)%N = (c <? b)%N).
  { intros c b Hc Hb. assert (c <> b) by (intros ->; contradiction).
    destruct (N.leb_spec c b), (N.ltb_spec c b); try reflexivity; lia. }
  destruct l; cbn [Spec.count_of]; apply F; intros c Hc;
    cbn [Spec.named_class]; unfold korean_chars, japanese_chars, chinese_chars.
  - f_equal. destruct (N.leb_spec c 0xD7A3), (N.ltb_spec c 0xD7A4);
      try reflexivity; lia.
  - f_equal. now apply N.
  - f_equal. now apply N.
  - symmetry. apply english_chars_letters.
Qed.

(** Everywhere else the code returns the language of the
    specification. *)
Lemma detect_language_named (text : str) :
  (Z.of_nat (length text) < 2 ^ 52)%Z ->
  ~ In 0x30FF%N text -> ~ In 0x9FFF%N text ->
  detect_language text = Some (Spec.code (Spec.detect text)).
Proof.
  intros Hlen Hj Hz.
  destruct (detect_language_winner text Hlen) as [w [Hw ->]].
  apply winner_first_max in Hw. unfold Spec.detect. cbv zeta.
  assert (Fm : Spec.first_max (fun l => Spec.named_count l text)
               = Spec.first_max (fun l => Spec.count_of l text)).
  { unfold Spec.first_max. cbn [fold_left].
    now rewrite !named_count_code by assumption. }
  rewrite Fm, named_count_code by assumption. now rewrite <- Hw.
Qed.

End NamedClasses.

Example detect_language_named_sample :
  let text := lit "こんにちは, 안녕! 你好 (hi)" in
  Spec.detect text = Spec.Ja /\ detect_language text = Some ja.
Proof. split; vm_compute; reflexivity. Qed.

(** C2: the set of the code for Japanese stops one short of the end of
    the Katakana block, and the one for Chinese one short of the end of
    the block of the unified ideographs, where the set for Korean ends
    with the last Hangul syllable.  On the text made of the Katakana
    letter [U+30FF] the Japanese count of the specification is 1, the
    maximum, and not below 5% of the length 1: the language is Japanese;
    the code counts nothing, keeps the first key and, as [0 < 0.05],
    returns ["en"].  The same holds of [U+9FFF] and Chinese. *)
Theorem detect_language_range_ends :
  korean_chars 0xD7A3%N = Spec.named_class Spec.Ko 0xD7A3%N /\
  Spec.named_class Spec.Ja 0x30FF%N = true /\
  japanese_chars 0x30FF%N = false /\
  Spec.detect [0x30FF%N] = Spec.Ja /\
  detect_language [0x30FF%N] = Some en /\
  Spec.named_class Spec.Zh 0x9FFF%N = true /\
  chinese_chars 0x9FFF%N = false /\
  Spec.detect [0x9FFF%N] = Spec.Zh /\
  detect_language [0x9FFF%N] = Some en.
Proof. repeat split; vm_compute; reflexivity. Qed.

(* ================================================================== *)
(** * format_time *)
(* ================================================================== *)

Example format_time_sample :
  format_time (3661 + (1 # 2)) = lit "01:01:01" /\
  format_time 0 = lit "00:00:00" /\
  format_time 360000 = lit "100:00:00".
Proof. repeat split; vm_compute; reflexivity. Qed.

(** C10, as stated, fails for large numbers of seconds: the quotient of
    [1e20 // 3600] is not a binary64 number, and the fields printed for
    [1e20] add up to 99999999999999996400. *)
Lemma format_time_hms_huge :
  let seconds := 100000000000000000000 in
  0 <= seconds /\
  is_float seconds = true /\
  format_time seconds = lit "27777777777777776:46:40" /\
  ~ Spec.hms_of seconds (format_time seconds).
Proof.
  split; [discriminate | ].
  split; [vm_compute; reflexivity | ].
  split; [vm_compute; reflexivity | ].
  intros [h [m [x [R [_ [_ Hsum]]]]]].
  vm_compute in R. injection R as <- <- <-.
  vm_compute in Hsum. discriminate.
Qed.

(** C10 (amended): for every number of seconds [s] with
    [0 <= s < 2^53], [format_time(s)] is a string ["HH:MM:SS"] of three
    fields of at least two decimal digits, the minutes and the seconds
    are between 0 and 59, and [HH*3600 + MM*60 + SS] is the integer
    part of [s]. *)
Theorem format_time_hms (seconds : Q) :
  0 <= seconds -> seconds < inject_Z (2 ^ 53) ->
  Spec.hms_of seconds (format_time seconds).
Proof.
  intros H0 H1. unfold Spec.hms_of, format_time.
  rewrite (time_fields_exact seconds H0 H1).
  pose proof (Qfloor_nonneg seconds H0) as F0.
  set (F := Qfloor seconds) in *.
  pose proof (Z.div_mod F 3600 ltac:(lia)) as D1.
  pose proof (Z.mod_pos_bound F 3600 eq_refl) as B1.
  pose proof (Z.div_mod (F mod 3600) 60 ltac:(lia)) as D2.
  pose proof (Z.mod_pos_bound (F mod 3600) 60 eq_refl) as B2.
  assert (M60 : ((F mod 3600) mod 60 = F mod 60)%Z).
  { clear. Z.div_mod_to_equations. lia. }
  assert (Hh : (0 <= F / 3600)%Z) by (apply Z.div_pos; lia).
  assert (Hm : (0 <= F mod 3600 / 60 <= 59)%Z).
  { split; [apply Z.div_pos; lia | ].
    assert (F mod 3600 / 60 < 60)%Z; [ | lia ].
    apply Z.div_lt_upper_bound; lia. }
  assert (Hs : (0 <= F mod 60 <= 59)%Z).
  { pose proof (Z.mod_pos_bound F 60 eq_refl). lia. }
  exists (Z.to_N (F / 3600)), (Z.to_N (F mod 3600 / 60)),
    (Z.to_N (F mod 60)).
  split; [apply read_hms_format; lia | ].
  unfold Spec.integer_part. fold F. lia.
Qed.

Lemma format_time_hms_witness :
  Spec.hms_of (86399 + (3 # 4)) (format_time (86399 + (3 # 4))) /\
  format_time (86399 + (3 # 4)) = lit "23:59:59".
Proof.
  split; [ | vm_compute; reflexivity ].
  apply format_time_hms; [discriminate | reflexivity].
Defined.

(* ================================================================== *)
(** * Further properties *)
(* ================================================================== *)

Local Close Scope Q_scope.

Section Subsequences.

Variable A : Type.

Lemma subseq_refl (l : list A) : subseq l l.
Proof. induction l; constructor; assumption. Qed.

Lemma subseq_nil_l (l : list A) : subseq [] l.
Proof. induction l; constructor; assumption. Qed.

Lemma subseq_trans (a b c : list A) :
  subseq a b -> subseq b c -> subseq a c.
Proof.
  intros Hab Hbc. revert a Hab.
  induction Hbc as [|x b c _ IH|x b c _ IH]; intros a Hab.
  - exact Hab.
  - constructor. now apply IH.
  - inversion Hab; subst; constructor; now apply IH.
Qed.

Lemma subseq_app (a a' b b' : list A) :
  subseq a a' -> subseq b b' -> subseq (a ++ b) (a' ++ b').
Proof.
  intros Ha Hb. induction Ha; simpl; try constructor; assumption.
Qed.

Lemma subseq_app_r (a b b' : list A) : subseq a b' -> subseq a (b ++ b').
Proof.
  intros H. change a with ([] ++ a).
  apply subseq_app; [apply subseq_nil_l | exact H].
Qed.

Lemma subseq_app_l (a b b' : list A) : subseq a b -> subseq a (b ++ b').
Proof.
  intros H. rewrite <- (app_nil_r a).
  apply subseq_app; [exact H | apply subseq_nil_l].
Qed.

Lemma subseq_length (a b : list A) : subseq a b -> length a <= length b.
Proof. induction 1; simpl; lia. Qed.

(** A subsequence that is as long as the list is the list. *)
Lemma subseq_full (a b : list A) :
  subseq a b -> length b <= length a -> a = b.
Proof.
  induction 1 as [|x a b Hab IH|x a b Hab IH]; simpl; intros Hlen.
  - reflexivity.
  - apply subseq_length in Hab. lia.
  - f_equal. apply IH. lia.
Qed.

Lemma subseq_antisym (a b : list A) : subseq a b -> subseq b a -> a = b.
Proof.
  intros Hab Hba. apply subseq_full; [exact Hab | ].
  now apply subseq_length.
Qed.

Lemma subseq_In (a b : list A) (x : A) : subseq a b -> In x a -> In x b.
Proof.
  induction 1; simpl; [tauto | tauto | ]. intros [-> | H']; tauto.
Qed.

Lemma subseq_skipn (k : nat) (l : list A) : subseq (skipn k l) l.
Proof.
  revert k; induction l as [|x l IH]; intros [|k]; simpl;
    try apply subseq_refl. constructor. apply IH.
Qed.

End Subsequences.

(** ** downloader.py *)

Section CleanFilename.

Lemma clean_filename_subseq (filename : str) :
  subseq (clean_filename filename) filename.
Proof.
  unfold clean_filename.
  induction filename as [|c s IH]; [constructor | ].
  simpl. destruct (is_invalid c); simpl;
    [apply subseq_skip | apply subseq_keep]; exact IH.
Qed.

Lemma clean_filename_no_invalid (filename : str) (c : char) :
  In c (clean_filename filename) -> is_invalid c = false.
Proof.
  unfold clean_filename. rewrite filter_In, negb_true_iff. tauto.
Qed.

(** What is deleted from the name is what has to be: every way of
    deleting characters that leaves no invalid one deletes at least as
    much. *)
Lemma clean_filename_greatest (filename s : str) :
  subseq s filename ->
  (forall c, In c s -> is_invalid c = false) ->
  subseq s (clean_filename filename).
Proof.
  unfold clean_filename.
  induction 1 as [|x s l Hs IH|x s l Hs IH]; intros Hv; cbn [filter].
  - constructor.
  - destruct (negb (is_invalid x)); [apply subseq_skip | ]; now apply IH.
  - rewrite (Hv x) by now left. cbn [negb].
    apply subseq_keep. apply IH. intros c Hc. apply Hv. now right.
Qed.

(** X1: [clean_filename] deletes the invalid characters of the name and
    nothing else.  Its result is a subsequence of the name that has
    none of the nine invalid characters, and it is the greatest one:
    every subsequence of the name without invalid characters is a
    subsequence of the result.  No other string is such. *)
Theorem clean_filename_valid (filename : str) :
  subseq (clean_filename filename) filename /\
  (forall c, In c (clean_filename filename) -> is_invalid c = false) /\
  (forall s, subseq s filename ->
             (forall c, In c s -> is_invalid c = false) ->
             subseq s (clean_filename filename)) /\
  (forall r, subseq r filename ->
             (forall c, In c r -> is_invalid c = false) ->
             (forall s, subseq s filename ->
                        (forall c, In c s -> is_invalid c = false) ->
                        subseq s r) ->
             r = clean_filename filename).
Proof.
  split; [apply clean_filename_subseq | ].
  split; [apply clean_filename_no_invalid | ].
  split; [apply clean_filename_greatest | ].
  intros r Hr Hv Hmax. apply subseq_antisym.
  - now apply clean_filename_greatest.
  - apply Hmax; [apply clean_filename_subseq | ].
    apply clean_filename_no_invalid.
Qed.

(** X2: a name is left unchanged by [clean_filename] exactly when it
    has none of the invalid characters; hence cleaning a cleaned name
    changes nothing. *)
Theorem clean_filename_fixed (filename : str) :
  (clean_filename filename = filename <->
   forall c, In c filename -> is_invalid c = false) /\
  clean_filename (clean_filename filename) = clean_filename filename.
Proof.
  assert (F : forall s,
             clean_filename s = s <->
             forall c, In c s -> is_invalid c = false).
  { intros s. unfold clean_filename. split.
    - intros H c Hc. rewrite <- H in Hc.
      apply filter_In in Hc as [_ Hc]. now apply negb_true_iff.
    - intros H. induction s as [|c s IH]; [reflexivity | ].
      simpl. rewrite (H c) by now left. simpl. f_equal.
      apply IH. intros d Hd. apply H. now right. }
  split; [apply F | ]. apply F. intros c Hc.
  unfold clean_filename in Hc. apply filter_In in Hc as [_ Hc].
  now apply negb_true_iff.
Qed.

End CleanFilename.

Lemma clean_filename_valid_witness :
  let filename := lit "a/b: c?.mp4" in
  clean_filename filename = lit "ab c.mp4" /\
  subseq (lit "ab c.mp4") (clean_filename filename) /\
  subseq (lit "bc.mp4") (clean_filename filename).
Proof.
  intros filename.
  destruct (clean_filename_valid filename) as [_ [_ [H _]]].
  split; [vm_compute; reflexivity | ].
  split; apply H.
  - vm_compute.
    repeat first [ apply subseq_keep | apply subseq_skip | apply subseq_nil ].
  - intros c Hc. vm_compute in Hc.
    repeat (destruct Hc as [<- | Hc]; [reflexivity | ]). contradiction.
  - vm_compute.
    repeat first [ apply subseq_keep | apply subseq_skip | apply subseq_nil ].
  - intros c Hc. vm_compute in Hc.
    repeat (destruct Hc as [<- | Hc]; [reflexivity | ]). contradiction.
Defined.

Section Indexing.

Variable A : Type.

Lemma py_index_first (x : A) (l : list A) : py_index (x :: l) 0 = Some x.
Proof. reflexivity. Qed.

Lemma py_index_second (x y : A) (l : list A) :
  py_index (x :: y :: l) 1 = Some y.
Proof. reflexivity. Qed.

Lemma py_index_last (l : list A) (x : A) :
  py_index (l ++ [x]) (-1) = Some x.
Proof.
  unfold py_index. rewrite length_app. simpl length.
  replace (0 <=? -1)%Z with false by reflexivity.
  replace (0 <=? Z.of_nat (length l + 1) + -1)%Z with true
    by (symmetry; apply Z.leb_le; lia).
  replace (Z.to_nat (Z.of_nat (length l + 1) + -1)) with (length l) by lia.
  now rewrite nth_error_app2, Nat.sub_diag by lia.
Qed.

Lemma py_index_last_In (l : list A) :
  l <> [] -> exists x, py_index l (-1) = Some x /\ In x l.
Proof.
  intros H. destruct (exists_last H) as [l' [x ->]].
  exists x. split; [apply py_index_last | ].
  apply in_or_app. right. now left.
Qed.

End Indexing.

Section VideoId.

Lemma containsb_single (c : char) (s : str) :
  containsb [c] s = false <-> ~ In c s.
Proof.
  induction s as [|d s IH]; [simpl; tauto | ].
  change (containsb [c] (d :: s))
    with (prefixb [c] (d :: s) || containsb [c] s).
  rewrite orb_false_iff, IH. simpl. rewrite andb_true_r, N.eqb_neq.
  split; [intros [H1 H2] [H | H]; congruence || tauto | ].
  intros H. split; [intros ->; apply H; now left | ].
  intros Hin. apply H. now right.
Qed.

Lemma split_first_piece (sep s : str) :
  sep <> [] ->
  exists p ps, split sep s = p :: ps /\ py_index (split sep s) 0 = Some p.
Proof.
  intros H. destruct (split sep s) as [|p ps] eqn:E.
  - now apply split_from_nonempty in E.
  - now exists p, ps.
Qed.

Lemma slash_nonempty : slash <> [].
Proof. discriminate. Qed.

Lemma question_nonempty : question <> [].
Proof. discriminate. Qed.

Lemma v_equals_nonempty : v_equals <> [].
Proof. discriminate. Qed.

Lemma ampersand_nonempty : ampersand <> [].
Proof. discriminate. Qed.

(** The shape of the result in the three cases of [get_video_id]. *)
Lemma get_video_id_cases (url : str) :
  (containsb youtu_be url = true /\
   exists last id rest,
     In last (split slash url) /\ split question last = id :: rest /\
     get_video_id url = Some id) \/
  (containsb youtu_be url = false /\
   containsb youtube_com url = true /\ containsb v_equals url = true /\
   exists p q l id rest,
     split v_equals url = p :: q :: l /\ split ampersand q = id :: rest /\
     get_video_id url = Some id) \/
  (containsb youtu_be url = false /\
   (containsb youtube_com url = false \/ containsb v_equals url = false) /\
   get_video_id url = Some url).
Proof.
  unfold get_video_id. destruct (containsb youtu_be url) eqn:E1.
  - left. split; [reflexivity | ].
    destruct (py_index_last_In _ (split slash url)) as [last [H1 H2]];
      [apply split_from_nonempty | ].
    destruct (split_first_piece question last question_nonempty)
      as [id [rest [H3 H4]]].
    exists last, id, rest. rewrite H1. auto.
  - right. destruct (containsb youtube_com url) eqn:E2;
      [destruct (containsb v_equals url) eqn:E3 | ]; simpl.
    + left. repeat split.
      destruct (split_present v_equals v_equals_nonempty url E3)
        as [p [q [l Hl]]].
      destruct (split_first_piece ampersand q ampersand_nonempty)
        as [id [rest [H3 H4]]].
      exists p, q, l, id, rest. rewrite Hl, py_index_second. auto.
    + right. auto.
    + right. auto.
Qed.

(** X3: [get_video_id] never raises: the pieces it indexes exist
    whatever the URL is (the index 1 is taken only when ["v="]
    occurs). *)
Theorem get_video_id_total (url : str) :
  exists id, get_video_id url = Some id.
Proof.
  destruct (get_video_id_cases url)
    as [[_ [last [id [rest [_ [_ H]]]]]]
       | [[_ [_ [_ [p [q [l [id [rest [_ [_ H]]]]]]]]]] | [_ [_ H]]]];
    eauto.
Qed.

(** X4: the identifier that [get_video_id] returns is a substring of
    the URL; for a [youtu.be] URL it has neither a slash nor a question
    mark, and for a [youtube.com] URL with ["v="] it has neither
    ["v="] nor an ampersand. *)
Theorem get_video_id_clean (url id : str) :
  get_video_id url = Some id ->
  occurs id url /\
  (containsb youtu_be url = true ->
   containsb slash id = false /\ containsb question id = false) /\
  (containsb youtu_be url = false ->
   containsb youtube_com url = true -> containsb v_equals url = true ->
   containsb v_equals id = false /\ containsb ampersand id = false).
Proof.
  intros H.
  destruct (get_video_id_cases url)
    as [[E1 [last [id' [rest [H1 [H2 H3]]]]]]
       | [[E1 [E2 [E3 [p [q [l [id' [rest [H1 [H2 H3]]]]]]]]]]
         | [E1 [E2 H3]]]];
    rewrite H3 in H; injection H as <-.
  - assert (Hid : In id' (split question last)) by (rewrite H2; now left).
    pose proof (split_piece_occurs _ _ _ question_nonempty Hid) as O1.
    pose proof (split_piece_occurs _ _ _ slash_nonempty H1) as O2.
    split; [exact (occurs_trans _ _ _ O1 O2) | ].
    split; [ | congruence ]. intros _. split.
    + apply (containsb_occurs_false _ _ _ O1).
      now apply (split_pieces_clean slash slash_nonempty url).
    + now apply (split_pieces_clean question question_nonempty last).
  - assert (Hid : In id' (split ampersand q)) by (rewrite H2; now left).
    assert (Hq : In q (split v_equals url))
      by (rewrite H1; right; now left).
    pose proof (split_piece_occurs _ _ _ ampersand_nonempty Hid) as O1.
    pose proof (split_piece_occurs _ _ _ v_equals_nonempty Hq) as O2.
    split; [exact (occurs_trans _ _ _ O1 O2) | ].
    split; [congruence | ]. intros _ _ _. split.
    + apply (containsb_occurs_false _ _ _ O1).
      now apply (split_pieces_clean v_equals v_equals_nonempty url).
    + now apply (split_pieces_clean ampersand ampersand_nonempty q).
  - split; [apply occurs_refl | ].
    split; [congruence | ]. intros _ F1 F2. destruct E2; congruence.
Qed.

(** [split] on one character cuts both sides of an occurrence. *)
Lemma split1_app (c : char) (a b : str) :
  split [c] (a ++ c :: b) = split [c] a ++ split [c] b.
Proof.
  induction a as [|d a IH].
  - change ([] ++ c :: b) with ([c] ++ b).
    rewrite split_sep_app by discriminate. reflexivity.
  - simpl app. destruct (N.eqb_spec c d) as [<- | Hd].
    + change (c :: a ++ c :: b) with ([c] ++ (a ++ c :: b)).
      change (c :: a) with ([c] ++ a).
      rewrite !split_sep_app by discriminate. now rewrite IH.
    + rewrite !split_cons_other
        by (simpl; rewrite andb_true_r; now apply N.eqb_neq).
      rewrite IH. destruct (split [c] a) eqn:E; [ | reflexivity ].
      now apply split_from_nonempty in E.
Qed.

(** The same facts for a separator given by name. *)
Lemma split_char_app (sep : str) (c : char) (a b : str) :
  sep = [c] -> split sep (a ++ sep ++ b) = split sep a ++ split sep b.
Proof. intros ->. apply split1_app. Qed.

Lemma split_char_prepend (sep : str) (c : char) (a b : str) :
  sep = [c] -> containsb sep a = false ->
  split sep (a ++ b) = prepend a (split sep b).
Proof.
  intros -> H. apply split1_prepend. now apply containsb_single.
Qed.

Lemma split_pair_prepend (sep : str) (c1 c2 : char) (a b : str) :
  sep = [c1; c2] -> containsb sep a = false -> (forall r, b <> c2 :: r) ->
  split sep (a ++ b) = prepend a (split sep b).
Proof. intros ->. apply split2_prepend. Qed.

Lemma containsb_char_app (sep : str) (c : char) (a b : str) :
  sep = [c] -> containsb sep a = false -> containsb sep b = false ->
  containsb sep (a ++ b) = false.
Proof.
  intros -> Ha Hb. apply containsb_single.
  apply containsb_single in Ha, Hb. rewrite in_app_iff. tauto.
Qed.

(** X5: from a [youtu.be] URL that ends with a slash, an identifier
    without slash or question mark and, optionally, a query without
    slash, [get_video_id] returns the identifier. *)
Theorem get_video_id_short_url (pre id tail : str) :
  containsb youtu_be (pre ++ slash ++ id ++ tail) = true ->
  containsb slash id = false ->
  containsb question id = false ->
  tail = [] \/
  (exists rest, tail = question ++ rest /\ containsb slash rest = false) ->
  get_video_id (pre ++ slash ++ id ++ tail) = Some id.
Proof.
  intros E1 Hs Hq Ht. unfold get_video_id. rewrite E1.
  assert (Hslash : containsb slash (id ++ tail) = false).
  { apply (containsb_char_app slash 47%N); [reflexivity | exact Hs | ].
    destruct Ht as [-> | [rest [-> Hr]]]; [reflexivity | ].
    apply (containsb_char_app slash 47%N); [reflexivity | reflexivity | ].
    exact Hr. }
  rewrite (split_char_app slash 47%N) by reflexivity.
  rewrite (split_absent slash (id ++ tail) Hslash), py_index_last.
  destruct Ht as [-> | [rest [-> _]]].
  - rewrite app_nil_r, (split_absent question id Hq). reflexivity.
  - rewrite (split_char_prepend question 63%N) by (reflexivity || exact Hq).
    rewrite split_sep_app by discriminate. cbn [prepend].
    now rewrite app_nil_r.
Qed.

(** X6: from a [youtube.com] URL whose first ["v="] is followed by an
    identifier without ["v="] or ampersand and, optionally, by further
    parameters, [get_video_id] returns the identifier. *)
Theorem get_video_id_watch_url (pre id tail : str) :
  containsb youtu_be (pre ++ v_equals ++ id ++ tail) = false ->
  containsb youtube_com (pre ++ v_equals ++ id ++ tail) = true ->
  containsb v_equals pre = false ->
  containsb v_equals id = false ->
  containsb ampersand id = false ->
  tail = [] \/ (exists rest, tail = ampersand ++ rest) ->
  get_video_id (pre ++ v_equals ++ id ++ tail) = Some id.
Proof.
  intros E1 E2 Hpre Hv Ha Ht. unfold get_video_id. rewrite E1, E2.
  assert (E3 : containsb v_equals (pre ++ v_equals ++ id ++ tail) = true).
  { apply containsb_spec. now exists pre, (id ++ tail). }
  rewrite E3. simpl andb. cbv iota.
  rewrite (split_pair_prepend v_equals 118%N 61%N);
    [ | reflexivity | exact Hpre | discriminate ].
  rewrite split_sep_app by discriminate. cbn [prepend].
  rewrite app_nil_r.
  rewrite (split_pair_prepend v_equals 118%N 61%N);
    [ | reflexivity | exact Hv
      | destruct Ht as [-> | [rest ->]]; discriminate ].
  destruct (split v_equals tail) as [|t ts] eqn:Et;
    [now apply split_from_nonempty in Et | ].
  cbn [prepend]. rewrite py_index_second.
  assert (Hhead : t = [] \/ exists r, t = ampersand ++ r).
  { destruct Ht as [-> | [rest ->]].
    - injection Et as <- _. now left.
    - right. change (ampersand ++ rest) with (38%N :: rest) in Et.
      rewrite split_cons_other in Et by reflexivity.
      destruct (split v_equals rest) as [|u us];
        injection Et as <- _; [now exists [] | now exists u]. }
  destruct Hhead as [-> | [r ->]].
  - rewrite app_nil_r, (split_absent ampersand id Ha). reflexivity.
  - rewrite (split_char_prepend ampersand 38%N)
      by (reflexivity || exact Ha).
    rewrite split_sep_app by discriminate. cbn [prepend].
    now rewrite app_nil_r.
Qed.

End VideoId.

Lemma get_video_id_clean_witness :
  let url := lit "https://youtu.be/dQw4w9WgXcQ?t=42" in
  get_video_id url = Some (lit "dQw4w9WgXcQ") /\
  occurs (lit "dQw4w9WgXcQ") url.
Proof.
  intros url.
  assert (H : get_video_id url = Some (lit "dQw4w9WgXcQ"))
    by (vm_compute; reflexivity).
  split; [exact H | ].
  exact (proj1 (get_video_id_clean url (lit "dQw4w9WgXcQ") H)).
Defined.

Lemma get_video_id_short_url_witness :
  get_video_id
    (lit "https://youtu.be" ++ slash ++ lit "dQw4w9WgXcQ" ++ lit "?t=42")
  = Some (lit "dQw4w9WgXcQ").
Proof.
  apply get_video_id_short_url; try (vm_compute; reflexivity).
  right. exists (lit "t=42"). split; vm_compute; reflexivity.
Defined.

Lemma get_video_id_watch_url_witness :
  get_video_id
    (lit "https://www.youtube.com/watch?" ++ v_equals
       ++ lit "dQw4w9WgXcQ" ++ lit "&list=PL1&v=other")
  = Some (lit "dQw4w9WgXcQ").
Proof.
  apply get_video_id_watch_url; try (vm_compute; reflexivity).
  right. exists (lit "list=PL1&v=other"). vm_compute. reflexivity.
Defined.

(** A [youtube.com] URL without ["v="] is returned whole. *)
Example get_video_id_embed :
  get_video_id (lit "https://www.youtube.com/embed/dQw4w9WgXcQ")
  = Some (lit "https://www.youtube.com/embed/dQw4w9WgXcQ").
Proof. vm_compute. reflexivity. Qed.

(** ** transcriber.py: check_meaningful_captions *)

Section MeaningfulCaptions.

Variable isalnum : char -> bool.
Hypothesis space_not_alnum : isalnum space = false.

Lemma texts_of_app (a b : list caption) :
  texts_of (a ++ b) =
    match texts_of a, texts_of b with
    | Some ta, Some tb => Some (ta ++ tb)
    | _, _ => None
    end.
Proof.
  induction a as [|c a IH]; simpl.
  - now destruct (texts_of b).
  - destruct (text_of c); [ | reflexivity ]. rewrite IH.
    destruct (texts_of a), (texts_of b); reflexivity.
Qed.

Lemma texts_of_None (captions : list caption) :
  texts_of captions = None <-> exists c, In c captions /\ text_of c = None.
Proof.
  induction captions as [|c cs IH]; simpl.
  - split; [discriminate | intros [c [[] _]]].
  - destruct (text_of c) eqn:E.
    + destruct (texts_of cs) eqn:F.
      * split; [discriminate | ].
        intros [c' [[<- | Hin] Hc']]; [congruence | ].
        assert (Some l = None); [ | discriminate ].
        apply (proj2 IH). now exists c'.
      * split; [ | reflexivity ]. intros _.
        destruct (proj1 IH eq_refl) as [c' [Hin Hc']].
        exists c'. split; [now right | exact Hc'].
    + split; [ | reflexivity ]. intros _. exists c. split; [now left | exact E].
Qed.

Lemma texts_of_length (captions : list caption) (texts : list str) :
  texts_of captions = Some texts -> length texts = length captions.
Proof.
  revert texts; induction captions as [|c cs IH]; intros texts; simpl.
  - now intros [= <-].
  - destruct (text_of c); [ | discriminate ].
    destruct (texts_of cs); [ | discriminate ].
    intros [= <-]. simpl. f_equal. now apply IH.
Qed.

(** The spaces that join the texts are not counted. *)
Lemma meaningful_length_join (texts : list str) :
  meaningful_length isalnum (join [space] texts)
  = list_sum (map (meaningful_length isalnum) texts).
Proof.
  unfold meaningful_length. induction texts as [|t ts IH]; [reflexivity | ].
  destruct ts as [|u ts].
  - simpl. lia.
  - rewrite join_cons by discriminate.
    rewrite !filter_app, !length_app, IH. simpl filter at 2.
    rewrite space_not_alnum. simpl. lia.
Qed.

Lemma check_meaningful_captions_count (captions : list caption) :
  check_meaningful_captions isalnum captions =
    option_map
      (fun texts =>
         (20 <=? list_sum (map (meaningful_length isalnum) texts))%nat)
      (texts_of captions).
Proof.
  unfold check_meaningful_captions. destruct captions as [|c cs].
  - reflexivity.
  - cbn [is_empty_list]. destruct (texts_of (c :: cs)); [ | reflexivity ].
    simpl option_map. now rewrite meaningful_length_join.
Qed.

(** X7: when a space is not alphanumeric, [check_meaningful_captions]
    answers whether the alphanumeric characters of the texts, counted
    text by text, are 20 at least: the spaces that join the texts do
    not count, and the empty track falls under the same rule. *)
Theorem check_meaningful_captions_sum (captions : list caption) :
  check_meaningful_captions isalnum captions =
    option_map
      (fun texts =>
         (20 <=? list_sum (map (meaningful_length isalnum) texts))%nat)
      (texts_of captions).
Proof. apply check_meaningful_captions_count. Qed.

(** X8: captions that are meaningful stay meaningful when further
    captions that have a text are put after or before them. *)
Theorem check_meaningful_captions_monotone (captions more : list caption) :
  check_meaningful_captions isalnum captions = Some true ->
  (forall c, In c more -> text_of c <> None) ->
  check_meaningful_captions isalnum (captions ++ more) = Some true /\
  check_meaningful_captions isalnum (more ++ captions) = Some true.
Proof.
  rewrite !check_meaningful_captions_count, !texts_of_app.
  intros H Hmore.
  destruct (texts_of captions) as [ta|]; [ | discriminate ].
  destruct (texts_of more) as [tb|] eqn:E.
  - cbn [option_map] in *.
    assert (H' : (20 <=? list_sum (map (meaningful_length isalnum) ta))%nat
                 = true) by congruence.
    apply Nat.leb_le in H'. rewrite !map_app, !list_sum_app.
    split; f_equal; apply Nat.leb_le; lia.
  - exfalso. apply texts_of_None in E as [c [Hin Hc]].
    now apply (Hmore c).
Qed.

End MeaningfulCaptions.

(** X9: [check_meaningful_captions] raises exactly when some caption
    has no string under ["text"]; on an empty track it does not. *)
Theorem check_meaningful_captions_raises
    (isalnum : char -> bool) (captions : list caption) :
  check_meaningful_captions isalnum captions = None <->
  exists c, In c captions /\ text_of c = None.
Proof.
  unfold check_meaningful_captions. destruct captions as [|c cs].
  - simpl. split; [discriminate | intros [c [[] _]]].
  - cbn [is_empty_list]. rewrite <- texts_of_None.
    destruct (texts_of (c :: cs)); split; congruence.
Qed.

Lemma check_meaningful_captions_sum_witness :
  let captions :=
    [ [(start_key, Num 0); (text_key, Str (lit "Never gonna give"))];
      [(start_key, Num 2); (text_key, Str (lit "you up 1987"))] ] in
  check_meaningful_captions ascii_alnum captions = Some true.
Proof.
  intros captions.
  rewrite (check_meaningful_captions_sum ascii_alnum eq_refl captions).
  vm_compute. reflexivity.
Defined.

Lemma check_meaningful_captions_monotone_witness :
  let captions :=
    [ [(text_key, Str (lit "Never gonna give you up 1987"))] ] in
  let more := [ [(text_key, Str (lit "!"))] ] in
  check_meaningful_captions ascii_alnum (captions ++ more) = Some true /\
  check_meaningful_captions ascii_alnum (more ++ captions) = Some true.
Proof.
  intros captions more.
  apply (check_meaningful_captions_monotone ascii_alnum eq_refl).
  - vm_compute. reflexivity.
  - intros c [<- | []]. vm_compute. discriminate.
Defined.

(** A caption without a text makes the check raise. *)
Example check_meaningful_captions_missing_text :
  check_meaningful_captions ascii_alnum
    [ [(text_key, Str (lit "one"))]; [(start_key, Num 1)] ] = None.
Proof. vm_compute. reflexivity. Qed.

(** ** document_generator.py: create_script_document *)

Section ScriptText.

Lemma full_text_fold (captions : list caption) (acc : str) :
  fold_left full_text_step captions (Some acc) =
    option_map
      (fun texts => acc ++ concat (map (fun t => t ++ [space]) texts))
      (texts_of captions).
Proof.
  revert acc; induction captions as [|c cs IH]; intros acc.
  - simpl. now rewrite app_nil_r.
  - cbn [fold_left full_text_step texts_of].
    destruct (text_of c) as [t|].
    + rewrite IH. destruct (texts_of cs); [ | reflexivity ].
      simpl. now rewrite <- !app_assoc.
    + clear. induction cs; [reflexivity | exact IHcs].
Qed.

Lemma concat_trailing_space (texts : list str) :
  texts <> [] ->
  concat (map (fun t => t ++ [space]) texts) = join [space] texts ++ [space].
Proof.
  induction texts as [|t ts IH]; [congruence | intros _ ].
  destruct ts as [|u ts].
  - simpl. now rewrite app_nil_r.
  - rewrite join_cons by discriminate. cbn [map concat].
    cbn [map concat] in IH. rewrite IH by discriminate.
    now rewrite <- !app_assoc.
Qed.

(** X10: for a non-empty track whose captions all have a text, the
    [full_text] that [create_script_document] accumulates is the texts
    joined with single spaces, followed by one more space. *)
Theorem full_text_of_join (captions : list caption) (texts : list str) :
  captions <> [] -> texts_of captions = Some texts ->
  full_text_of captions = Some (join [space] texts ++ [space]).
Proof.
  intros Hne Ht. unfold full_text_of.
  destruct captions as [|c cs]; [congruence | ]. cbn [is_empty_list negb].
  rewrite full_text_fold, Ht. simpl option_map. f_equal.
  apply concat_trailing_space. intros ->.
  apply texts_of_length in Ht. discriminate.
Qed.

Lemma insufficient_notice_nonblank : strip insufficient_notice <> [].
Proof. vm_compute. discriminate. Qed.

Lemma insufficient_notice_refined :
  refine_script insufficient_notice = insufficient_notice.
Proof. vm_compute. reflexivity. Qed.

(** X11: the text that [create_script_document] refines is never
    blank, so [refined_script] is always the result of [refine_script]
    and the placeholder of the [else] branch is never used. *)
Theorem script_source_nonblank (captions : list caption) (source : str) :
  script_source captions = Some source ->
  strip source <> [] /\
  refined_script_of captions = Some (refine_script source).
Proof.
  intros H. assert (Hs : strip source <> []).
  { unfold script_source in H. destruct (full_text_of captions) as [full|];
      [ | discriminate ].
    injection H as <-. destruct (insufficient captions full) eqn:E.
    - exact insufficient_notice_nonblank.
    - unfold insufficient in E. apply orb_false_iff in E as [_ E].
      apply Nat.ltb_ge in E. intros Hnil. rewrite Hnil in E.
      simpl in E. lia. }
  split; [exact Hs | ]. unfold refined_script_of. rewrite H.
  destruct (strip source); [congruence | reflexivity].
Qed.

(** X12: for a track that is empty or whose text has fewer than 30
    characters once stripped, the script is the notice of insufficient
    captions, and no translation of it is asked for, whatever the
    [translate] flag is. *)
Theorem insufficient_captions_script
    (captions : list caption) (full_text : str) :
  full_text_of captions = Some full_text ->
  insufficient captions full_text = true ->
  refined_script_of captions = Some insufficient_notice /\
  forall translate,
    translation_wanted translate insufficient_notice = Some false.
Proof.
  intros Hf Hi. split.
  - unfold refined_script_of, script_source. rewrite Hf, Hi.
    destruct (strip insufficient_notice) eqn:E;
      [now apply insufficient_notice_nonblank in E | ].
    simpl. now rewrite insufficient_notice_refined.
  - intros []; vm_compute; reflexivity.
Qed.

End ScriptText.

Lemma full_text_of_join_witness :
  full_text_of
    [ [(text_key, Str (lit "Hello"))]; [(text_key, Str (lit "world."))] ]
  = Some (lit "Hello world. ").
Proof.
  apply (full_text_of_join _ [lit "Hello"; lit "world."]);
    [discriminate | reflexivity].
Defined.

Lemma script_source_nonblank_witness :
  refined_script_of [] = Some (refine_script insufficient_notice).
Proof.
  apply (script_source_nonblank [] insufficient_notice). reflexivity.
Defined.

Lemma insufficient_captions_script_witness :
  let captions := [ [(start_key, Num 0); (text_key, Str (lit "Hi."))] ] in
  refined_script_of captions = Some insufficient_notice /\
  translation_wanted true insufficient_notice = Some false.
Proof.
  intros captions.
  destruct (insufficient_captions_script captions (lit "Hi. "))
    as [H1 H2]; [reflexivity | reflexivity | ].
  split; [exact H1 | exact (H2 true)].
Defined.

(** ** translator.py: translate_paragraphs *)

Section TranslateParagraphs.

Variable world : Type.
Variable configure_genai : option str -> world -> bool * world.
Variable generate_content : bool -> str -> world -> option str * world.
Variables source_lang target_lang : str.
Variable api_key : option str.

(** One turn of the loop appends the entry of the paragraph. *)
Lemma translate_step_entry (acc : list str) (w : world) (p : str) :
  exists t w',
    translate_step configure_genai generate_content
      source_lang target_lang api_key (acc, w) p = (acc ++ [t], w') /\
    entry_of configure_genai generate_content
      source_lang target_lang api_key p w t w'.
Proof.
  unfold translate_step, translate_text. fold (nonblank p).
  destruct (nonblank p) eqn:B.
  - destruct (configure_genai api_key w) as [[] w1] eqn:C; cbn [negb].
    + destruct (Nat.ltb_spec (length (strip p)) 5) as [L | L].
      * exists p, w1. split; [reflexivity | ].
        eapply entry_short; eassumption.
      * destruct (generate_content true _ w1) as [[r|] w2] eqn:G1.
        -- exists (strip r), w2. split; [reflexivity | ].
           eapply entry_answer; eassumption.
        -- destruct (generate_content false _ w2) as [[r|] w3] eqn:G2.
           ++ exists (strip r), w3. split; [reflexivity | ].
              eapply entry_retry; eassumption.
           ++ exists p, w3. split; [reflexivity | ].
              eapply entry_failed; eassumption.
    + exists p, w1. split; [reflexivity | ].
      eapply entry_unconfigured; eassumption.
  - exists [], w. split; [reflexivity | ].
    now apply entry_blank.
Qed.

Lemma translate_fold_entries (paragraphs acc : list str) (w : world) :
  exists out w',
    fold_left
      (translate_step configure_genai generate_content
         source_lang target_lang api_key) paragraphs (acc, w)
    = (acc ++ out, w') /\
    entries_of configure_genai generate_content
      source_lang target_lang api_key paragraphs w out w'.
Proof.
  revert acc w; induction paragraphs as [|p ps IH]; intros acc w.
  - exists [], w. simpl. rewrite app_nil_r. split; [reflexivity | constructor].
  - cbn [fold_left].
    destruct (translate_step_entry acc w p) as [t [w1 [H1 H2]]].
    rewrite H1. destruct (IH (acc ++ [t]) w1) as [out [w2 [H3 H4]]].
    exists (t :: out), w2. rewrite H3, <- app_assoc.
    split; [reflexivity | ]. eapply entries_cons; eassumption.
Qed.

Lemma entries_length (paragraphs out : list str) (w w' : world) :
  entries_of configure_genai generate_content
    source_lang target_lang api_key paragraphs w out w' ->
  length out = length paragraphs.
Proof. induction 1; simpl; congruence. Qed.

(** X13: once the configuration has succeeded, [translate_paragraphs]
    does not raise and returns one entry per paragraph, in order: the
    empty string for a blank paragraph; the paragraph itself when it
    has fewer than 5 characters once stripped, or when the translation
    raises (the configuration fails, or the request and its retry both
    fail); and otherwise the stripped answer of the service to the
    prompt of that paragraph, from the first request or else from the
    retry. *)
Theorem translate_paragraphs_aligned (paragraphs : list str) (w w1 : world) :
  configure_genai api_key w = (true, w1) ->
  exists out w',
    translate_paragraphs configure_genai generate_content
      paragraphs source_lang target_lang api_key w = (Some out, w') /\
    length out = length paragraphs /\
    entries_of configure_genai generate_content
      source_lang target_lang api_key paragraphs w1 out w'.
Proof.
  intros Hc. unfold translate_paragraphs. rewrite Hc. simpl negb. cbv iota.
  destruct (translate_fold_entries paragraphs [] w1) as [out [w' [H1 H2]]].
  rewrite H1. exists out, w'. split; [reflexivity | ].
  split; [exact (entries_length _ _ _ _ H2) | exact H2].
Qed.

End TranslateParagraphs.

Lemma translate_paragraphs_aligned_witness :
  let paragraphs := [lit "Hello there, world."; lit "   "; lit "Hi"] in
  translate_paragraphs sample_configure sample_generate
    paragraphs en ko None 0
  = (Some [lit "ok"; []; lit "Hi"], 2) /\
  entries_of sample_configure sample_generate en ko None
    paragraphs 0 [lit "ok"; []; lit "Hi"] 2.
Proof.
  intros paragraphs.
  destruct (translate_paragraphs_aligned nat sample_configure
              sample_generate en ko None paragraphs 0 0 eq_refl)
    as [out [w' [H1 [_ H3]]]].
  assert (E : (Some out, w') = (Some [lit "ok"; []; lit "Hi"], 2))
    by (rewrite <- H1; vm_compute; reflexivity).
  injection E as -> ->.
  split; [exact H1 | exact H3].
Defined.

Example translate_paragraphs_sample :
  translate_paragraphs sample_configure sample_generate
    [lit "Hello there, world."; lit "   "; lit "Hi"] en ko None 0
  = (Some [lit "ok"; []; lit "Hi"], 2).
Proof. vm_compute. reflexivity. Qed.

(** ** refine_script and split_into_paragraphs *)

Section RefineSubsequence.

Lemma occurs_subseq (p s : str) : occurs p s -> subseq p s.
Proof.
  intros [a [b ->]]. apply subseq_app_r, subseq_app_l, subseq_refl.
Qed.

Lemma re_sub_empty_from_subseq (pat : str) (k : nat) (s : str) :
  subseq (re_sub_empty_from pat k s) s.
Proof.
  revert k; induction s as [|c s IH]; intros k; [constructor | ].
  cbn [re_sub_empty_from]. destruct k as [|k].
  - destruct (prefixb pat (c :: s));
      [apply subseq_skip | apply subseq_keep]; apply IH.
  - apply subseq_skip, IH.
Qed.

Lemma re_sub_dots_from_subseq (b : bool) (s : str) :
  subseq (re_sub_dots_from b s) s.
Proof.
  revert b; induction s as [|c s IH]; intros b; [constructor | ].
  cbn [re_sub_dots_from]. destruct (N.eqb_spec c dot) as [-> | _].
  - destruct b; [apply subseq_skip | apply subseq_keep]; apply IH.
  - apply subseq_keep, IH.
Qed.

Lemma unique_fold_subseq (l acc : list str) :
  exists kept,
    fold_left unique_step l acc = acc ++ kept /\ subseq kept l.
Proof.
  revert acc; induction l as [|s l IH]; intros acc.
  - exists []. simpl. rewrite app_nil_r. split; [reflexivity | constructor].
  - cbn [fold_left]. unfold unique_step at 2.
    destruct (negb (is_empty s)
              && negb (if in_dec str_eq_dec s acc then true else false)).
    + destruct (IH (acc ++ [s])) as [kept [H1 H2]].
      exists (s :: kept). rewrite H1, <- app_assoc.
      split; [reflexivity | now apply subseq_keep].
    + destruct (IH acc) as [kept [H1 H2]].
      exists kept. split; [exact H1 | now apply subseq_skip].
Qed.

Lemma join_subseq (sep : str) (l' l : list str) :
  subseq l' l -> subseq (join sep l') (join sep l).
Proof.
  induction 1 as [|x l' l H IH|x l' l H IH].
  - constructor.
  - destruct l as [|y l].
    + inversion H; subst. apply subseq_nil_l.
    + rewrite join_cons by discriminate.
      now apply subseq_app_r, subseq_app_r.
  - destruct l' as [|y' l'].
    + destruct l as [|y l]; [apply subseq_refl | ].
      rewrite (join_cons sep x (y :: l)) by discriminate.
      apply subseq_app_l, subseq_refl.
    + destruct l as [|y l]; [inversion H | ].
      rewrite !join_cons by discriminate.
      apply subseq_app; [apply subseq_refl | ].
      apply subseq_app; [apply subseq_refl | exact IH].
Qed.

(** X14: [refine_script] only deletes characters: its result is a
    subsequence of the text, hence no longer than the text. *)
Theorem refine_script_subseq (text : str) :
  subseq (refine_script text) text /\
  length (refine_script text) <= length text.
Proof.
  assert (H : subseq (refine_script text) text).
  { unfold refine_script.
    eapply subseq_trans; [apply occurs_subseq, strip_occurs | ].
    eapply subseq_trans; [apply re_sub_dots_from_subseq | ].
    eapply subseq_trans; [ | apply (re_sub_empty_from_subseq marker 0) ].
    destruct (unique_fold_subseq
                (split dot_space (re_sub_empty marker text)) [])
      as [kept [H1 H2]].
    unfold unique_sentences. rewrite H1. simpl app.
    eapply subseq_trans; [apply join_subseq, H2 | ].
    rewrite join_split by discriminate. apply subseq_refl. }
  split; [exact H | now apply subseq_length].
Qed.

Lemma strip_ends (s : str) :
  strip s = [] \/
  (exists c r, strip s = c :: r /\ is_space c = false) /\
  (exists r c, strip s = r ++ [c] /\ is_space c = false).
Proof.
  unfold strip. destruct (lstrip_head s) as [-> | [c [y [-> Hc]]]];
    [now left | right].
  split.
  - rewrite (rstrip_cons _ _ Hc). now exists c, (rstrip y).
  - unfold rstrip.
    destruct (lstrip_head (rev (c :: y))) as [E | [d [z [E Hd]]]].
    + exfalso. simpl in E. rewrite (lstrip_snoc _ _ Hc) in E.
      destruct (lstrip (rev y)); discriminate.
    + rewrite E. simpl. now exists (rev z), d.
Qed.

(** X15: the result of [refine_script] is empty, or it starts and
    ends with a character that is not white space. *)
Theorem refine_script_ends (text : str) :
  refine_script text = [] \/
  (exists c r, refine_script text = c :: r /\ is_space c = false) /\
  (exists r c, refine_script text = r ++ [c] /\ is_space c = false).
Proof. unfold refine_script. apply strip_ends. Qed.

End RefineSubsequence.

Section ParagraphsMore.

Variable lower : str -> str.

Lemma join_app (sep : str) (a b : list str) :
  a <> [] -> b <> [] ->
  join sep (a ++ b) = join sep a ++ sep ++ join sep b.
Proof.
  intros Ha Hb. induction a as [|x a IH]; [congruence | ].
  destruct a as [|y a].
  - simpl app. now rewrite join_cons.
  - change ((x :: y :: a) ++ b) with (x :: (y :: a) ++ b).
    rewrite join_cons by discriminate.
    rewrite (join_cons sep x (y :: a)) by discriminate.
    rewrite IH by discriminate. now rewrite <- !app_assoc.
Qed.

(** Joining joined groups is joining all their elements. *)
Lemma join_concat (sep : str) (groups : list (list str)) :
  Forall (fun g => g <> []) groups ->
  join sep (map (join sep) groups) = join sep (concat groups).
Proof.
  induction 1 as [|g gs Hg Hgs IH]; [reflexivity | ].
  destruct gs as [|h gs].
  - simpl. now rewrite app_nil_r.
  - cbn [map]. rewrite join_cons by discriminate.
    cbn [map] in IH. rewrite IH. cbn [concat].
    rewrite (join_app sep g); [reflexivity | exact Hg | ].
    inversion Hgs; subst. destruct h; [congruence | discriminate].
Qed.

(** X16: the paragraphs of [split_into_paragraphs], joined with
    single spaces, are the accumulated sentences joined with single
    spaces: no sentence is lost, repeated or moved. *)
Theorem split_into_paragraphs_rejoin (text : str) :
  join [space] (split_into_paragraphs lower text)
  = join [space] (accumulated text).
Proof.
  destruct (split_into_paragraphs_groups lower text)
    as [groups [H1 [H2 H3]]].
  rewrite H1, <- H3. apply join_concat.
  eapply Forall_impl; [ | exact H2 ].
  intros g [Hlen _] ->. simpl in Hlen. lia.
Qed.

Lemma paragraph_loop_closed (sentences : list str) :
  forall (groups : list (list str)) (cur : list str),
    Forall (closed_group lower) groups -> length cur < 5 ->
    exists groups' cur',
      fold_left (paragraph_step lower) sentences
        (map (join [space]) groups, cur)
      = (map (join [space]) groups', cur') /\
      Forall (closed_group lower) groups' /\ length cur' < 5 /\
      concat groups' ++ cur'
      = concat groups ++ cur ++ filter nonblank sentences.
Proof.
  induction sentences as [|s sentences IH]; intros groups cur Hg Hc.
  - exists groups, cur. simpl. now rewrite app_nil_r.
  - cbn [fold_left filter]. unfold paragraph_step at 2.
    fold (nonblank s). destruct (nonblank s) eqn:Hs; [ | now apply IH ].
    destruct ((5 <=? length (cur ++ [s])) || has_keyword lower s)
      eqn:Hflush.
    + replace (map (join [space]) groups ++ [join [space] (cur ++ [s])])
        with (map (join [space]) (groups ++ [cur ++ [s]]))
        by (now rewrite map_app).
      destruct (IH (groups ++ [cur ++ [s]]) [])
        as [groups' [cur' [Hfold [Hg' [Hc' Hcat]]]]].
      * apply Forall_app. split; [exact Hg | ].
        constructor; [ | constructor ].
        apply orb_true_iff in Hflush as [H5 | Hk].
        -- left. apply Nat.leb_le in H5.
           rewrite length_app in *. simpl in *. lia.
        -- right. now exists cur, s.
      * simpl. lia.
      * exists groups', cur'.
        split; [exact Hfold | split; [exact Hg' | split; [exact Hc' | ]]].
        rewrite Hcat, concat_app. simpl.
        now rewrite app_nil_r, <- !app_assoc.
    + apply orb_false_iff in Hflush as [Hlen Hkw].
      apply Nat.leb_gt in Hlen.
      destruct (IH groups (cur ++ [s]))
        as [groups' [cur' [Hfold [Hg' [Hc' Hcat]]]]];
        [exact Hg | exact Hlen | ].
      exists groups', cur'.
      split; [exact Hfold | split; [exact Hg' | split; [exact Hc' | ]]].
      rewrite Hcat. now rewrite <- !app_assoc.
Qed.

(** X17: every paragraph but the last was closed for one of the two
    reasons: its group has 5 sentences, or it ends with a sentence
    that has a keyword; only the last paragraph can be an unfinished
    group of 1 to 4 sentences. *)
Theorem split_into_paragraphs_closed (text : str) :
  exists (closed : list (list str)) (open : list (list str)),
    split_into_paragraphs lower text
    = map (join [space]) (closed ++ open) /\
    concat (closed ++ open) = accumulated text /\
    Forall (closed_group lower) closed /\
    (open = [] \/ exists g, open = [g] /\ 1 <= length g < 5).
Proof.
  unfold split_into_paragraphs, accumulated.
  destruct (is_empty text || (length (strip text) <? 30)).
  - exists [], []. repeat split; [constructor | now left].
  - fold (sentences_of text). unfold paragraphs_of.
    destruct (paragraph_loop_closed (sentences_of text) [] [])
      as [groups [cur [Hfold [Hg [Hc Hcat]]]]];
      [constructor | simpl; lia | ].
    simpl in Hfold. rewrite Hfold. simpl in Hcat.
    destruct cur as [|s cur]; simpl.
    + exists groups, []. rewrite !app_nil_r in *.
      split; [reflexivity | split; [exact Hcat | split; [exact Hg | ]]].
      now left.
    + exists groups, [s :: cur]. rewrite map_app. simpl.
      split; [reflexivity | ].
      split; [rewrite concat_app; simpl; now rewrite app_nil_r | ].
      split; [exact Hg | right ].
      exists (s :: cur). split; [reflexivity | simpl in *; lia].
Qed.

End ParagraphsMore.

(** ** format_time and detect_language *)

Section TimeWidth.

Lemma format_02d_width (z : Z) :
  (0 <= z < 100)%Z -> length (format_02d z) = 2.
Proof.
  intros H.
  assert (T : forallb (fun n => length (format_02d (Z.of_nat n)) =? 2)
                (seq 0 100) = true) by (vm_compute; reflexivity).
  rewrite forallb_forall in T.
  specialize (T (Z.to_nat z)). rewrite Z2Nat.id in T by lia.
  apply Nat.eqb_eq, T, in_seq. lia.
Qed.

(** X18: for less than 100 hours, [format_time] returns exactly 8
    characters. *)
Theorem format_time_width (seconds : Q) :
  (0 <= seconds)%Q -> (seconds < 360000)%Q ->
  length (format_time seconds) = 8.
Proof.
  intros H0 H1.
  assert (H53 : (seconds < inject_Z (2 ^ 53))%Q).
  { change (inject_Z (2 ^ 53)) with 9007199254740992%Q. lra. }
  unfold format_time. rewrite (time_fields_exact seconds H0 H53).
  pose proof (Qfloor_nonneg seconds H0) as F0.
  assert (F1 : (Qfloor seconds < 360000)%Z).
  { pose proof (Qfloor_le seconds) as L. rewrite Zlt_Qlt.
    change (inject_Z 360000) with 360000%Q. lra. }
  set (F := Qfloor seconds) in *.
  rewrite !length_app. simpl length.
  rewrite !format_02d_width.
  - reflexivity.
  - pose proof (Z.mod_pos_bound F 60 eq_refl). lia.
  - pose proof (Z.mod_pos_bound F 3600 eq_refl).
    split; [apply Z.div_pos; lia | apply Z.div_lt_upper_bound; lia].
  - split; [apply Z.div_pos; lia | apply Z.div_lt_upper_bound; lia].
Qed.

End TimeWidth.

Lemma format_time_width_witness :
  length (format_time (359999 + (9 # 10))%Q) = 8 /\
  format_time (359999 + (9 # 10))%Q = lit "99:59:59".
Proof.
  split; [ | vm_compute; reflexivity ].
  apply format_time_width; [discriminate | reflexivity].
Defined.

(** From 100 hours on, the hours take more than two digits. *)
Example format_time_100_hours :
  format_time 360000%Q = lit "100:00:00".
Proof. vm_compute. reflexivity. Qed.

Section Majority.

(** A character belongs to one class at most. *)
Lemma classes_disjoint (c : char) : class_count c <= 1.
Proof.
  unfold class_count.
  destruct (english_chars c) eqn:E.
  - apply english_chars_bound in E.
    unfold korean_chars, japanese_chars, chinese_chars.
    repeat match goal with
           | |- context [(?a <=? ?b)%N] => destruct (N.leb_spec a b)
           | |- context [(?a <? ?b)%N] => destruct (N.ltb_spec a b)
           end; simpl; lia.
  - unfold korean_chars, japanese_chars, chinese_chars.
    repeat match goal with
           | |- context [(?a <=? ?b)%N] => destruct (N.leb_spec a b)
           | |- context [(?a <? ?b)%N] => destruct (N.ltb_spec a b)
           end; simpl; lia.
Qed.

Lemma counts_sum (text : str) :
  (Spec.count_of Spec.Ko text + Spec.count_of Spec.Ja text
   + Spec.count_of Spec.Zh text + Spec.count_of Spec.En text
   <= Z.of_nat (length text))%Z.
Proof.
  cbn [Spec.count_of]. rewrite !count_filter.
  induction text as [|c text IH]; [simpl; lia | ].
  pose proof (classes_disjoint c) as D. unfold class_count in D.
  cbn [filter length].
  destruct (korean_chars c), (japanese_chars c), (chinese_chars c),
    (english_chars c); cbn [length] in *; lia.
Qed.

(** X19: a language whose characters are more than half of the text
    (of fewer than [2^52] characters) is the one [detect_language]
    returns. *)
Theorem detect_language_majority (text : str) (l : Spec.lang) :
  (Z.of_nat (length text) < 2 ^ 52)%Z ->
  (Z.of_nat (length text) < 2 * Spec.count_of l text)%Z ->
  detect_language text = Some (Spec.code l).
Proof.
  intros Hlen Hmaj.
  destruct (detect_language_cases text) as [w [[W1 W2] ->]].
  rewrite (five_percent_exact _ _ (count_of_bounds w text) Hlen).
  pose proof (counts_sum text) as S. pose proof (W1 l) as Wl.
  pose proof (count_of_bounds Spec.Ko text).
  pose proof (count_of_bounds Spec.Ja text).
  pose proof (count_of_bounds Spec.Zh text).
  pose proof (count_of_bounds Spec.En text).
  assert (E : w = l) by (destruct w, l; try reflexivity; exfalso; lia).
  subst w.
  destruct (Z.ltb_spec (20 * Spec.count_of l text)
              (Z.of_nat (length text))); [lia | reflexivity].
Qed.

Lemma count_none (chars : char -> bool) (text : str) :
  (forall c, In c text -> chars c = false) -> count chars text = 0%Z.
Proof.
  intros H. rewrite count_filter.
  induction text as [|c text IH]; [reflexivity | ].
  simpl. rewrite (H c) by now left. apply IH.
  intros d Hd. apply H. now right.
Qed.

(** X20: a non-empty text (of fewer than [2^52] characters) without
    any character of the Korean, Japanese and Chinese ranges is
    detected as ["en"], even if it has no letter at all. *)
Theorem detect_language_no_cjk (text : str) :
  text <> [] ->
  (Z.of_nat (length text) < 2 ^ 52)%Z ->
  (forall c, In c text ->
     korean_chars c = false /\ japanese_chars c = false /\
     chinese_chars c = false) ->
  detect_language text = Some en.
Proof.
  intros Hne Hlen Hc.
  destruct (detect_language_cases text) as [w [_ ->]].
  rewrite (five_percent_exact _ _ (count_of_bounds w text) Hlen).
  assert (Hn : (0 < Z.of_nat (length text))%Z)
    by (destruct text; [congruence | simpl; lia]).
  destruct w; cbn [Spec.count_of Spec.code];
    try (rewrite count_none by (intros c Hin; apply (Hc c Hin));
         destruct (Z.ltb_spec (20 * 0) (Z.of_nat (length text)));
         [reflexivity | lia]).
  now destruct (20 * count english_chars text <? Z.of_nat (length text))%Z.
Qed.

End Majority.

Lemma detect_language_majority_witness :
  detect_language (lit "안녕하세요 hi") = Some ko.
Proof.
  apply (detect_language_majority _ Spec.Ko); vm_compute; reflexivity.
Defined.

Lemma detect_language_no_cjk_witness :
  detect_language (lit "12:34 - 56%") = Some en.
Proof.
  apply detect_language_no_cjk.
  - discriminate.
  - vm_compute. reflexivity.
  - intros c Hc. vm_compute in Hc.
    repeat (destruct Hc as [<- | Hc]; [repeat split | ]).
    contradiction.
Defined.
